(** * RTSP camera plugin (plugins/rtsp/src/rtsp.ts)

    A shallow embedding of the three classes of the plugin, [RtspCamera],
    [RtspSmartCamera] and [RtspProvider], and the properties of their
    settings-driven URL construction, listener supervision and device
    registry. *)

From Stdlib Require Import ZArith Lia.
From stdpp Require Import gmap strings list.

Local Open Scope string_scope.

(** ** JavaScript values read from the settings bag *)

(** [this.storage] is a [Storage]: string keys, string values, and
    [getItem] answers [null] for a key that was never set.  [None] is that
    [null]. *)
Abbreviation Storage := (gmap string string).

Module Js.

Definition getItem (key : string) (storage : Storage) : option string :=
  storage !! key.

Definition setItem (key value : string) (storage : Storage) : Storage :=
  <[key := value]> storage.

(** [v === lit] against a string literal. *)
Definition strict_eq (v : option string) (lit : string) : bool :=
  match v with
  | Some s => bool_decide (s = lit)
  | None => false
  end.

(** ToBoolean: [null] and the empty string are the falsy ones. *)
Definition truthy (v : option string) : bool :=
  match v with
  | Some s => negb (bool_decide (s = ""))
  | None => false
  end.

(** [v || lit] with a string literal on the right. *)
Definition or_else (v : option string) (lit : string) : string :=
  match v with
  | Some s => if truthy v then s else lit
  | None => lit
  end.

(** ToString inside a template literal: [null] is spelled out. *)
Definition template (v : option string) : string :=
  match v with
  | Some s => s
  | None => "null"
  end.

(** [b.toString()] of a boolean. *)
Definition bool_toString (b : bool) : string :=
  if b then "true" else "false".

End Js.

(** ** Numbers handed to [putSetting]

    A setting value is [string | number]; the code only ever calls
    [toString()] on it.  The number type of the host and its printer are kept
    abstract, together with the sequence of values [Math.random()] hands
    out (the n-th call returns [Math_random n]). *)
Class Platform := {
  number : Type;
  number_toString : number → string;
  Math_random : nat → number;
}.

Inductive SettingValue `{Platform} :=
  | VString (s : string)
  | VNumber (n : number).

Definition toString `{Platform} (value : SettingValue) : string :=
  match value with
  | VString s => s
  | VNumber n => number_toString n
  end.

(** ** Settings shown to the operator

    A [Setting] object: [placeholder], [description] and [type] are [None]
    when the object literal leaves the property out.  For [value], [None] is
    a literal without the property, [Some None] a property holding [null]. *)
Module Setting.

Record t := {
  key : string;
  title : string;
  placeholder : option string;
  description : option string;
  type : option string;
  value : option (option string);
}.

Definition keys (settings : list t) : list string := key <$> settings.

(** The first setting listed under a key. *)
Definition lookup (k : string) (settings : list t) : option t :=
  List.find (λ s, bool_decide (key s = k)) settings.

End Setting.

(** ** The URL class of the runtime

    [new URL(s)] either throws ([None]) or yields a URL record; the
    [username] and [password] setters and [toString] are those of the
    runtime.  Constructor and setters stringify their argument, so a [null]
    reaches them as the string "null". *)
Class UrlApi := {
  URL : Type;
  URL_parse : string → option URL;
  URL_set_username : string → URL → URL;
  URL_set_password : string → URL → URL;
  URL_toString : URL → string;
}.

(** ** RtspCamera *)

Module RtspCamera.

(** The [video] and [audio] members of [MediaStreamOptions] are objects
    without declared constraints ([{}]); [None] is the [null] the code
    stores when audio is disabled. *)
Record Constraints := { }.

Record MediaStreamOptions := {
  video : option Constraints;
  audio : option Constraints;
}.

Definition isAudioDisabled (storage : Storage) : bool :=
  Js.strict_eq (Js.getItem "noAudio" storage) "true".

Definition getVideoStreamOptions (storage : Storage) : list MediaStreamOptions :=
  [ {| video := Some Build_Constraints;
       audio := if isAudioDisabled storage then None else Some Build_Constraints |} ].

Definition getStreamUrl (storage : Storage) : option string :=
  Js.getItem "url" storage.

Definition getUsername (storage : Storage) : option string :=
  Js.getItem "username" storage.

Definition getPassword (storage : Storage) : option string :=
  Js.getItem "password" storage.

Definition putSetting `{Platform} (key : string) (value : SettingValue)
    (storage : Storage) : Storage :=
  Js.setItem key (toString value) storage.

Definition getUrlSettings (storage : Storage) : list Setting.t :=
  [ {| Setting.key := "url";
       Setting.title := "RTSP Stream URL";
       Setting.placeholder := Some "rtsp://192.168.1.100:4567/foo/bar";
       Setting.description := None;
       Setting.type := None;
       Setting.value := Some (Js.getItem "url" storage) |} ].

(** [getSettings] spreads [this.getUrlSettings()], which a subclass
    overrides; the three entries after it are the same for every camera. *)
Definition getSettings_with (urlSettings : list Setting.t) (storage : Storage)
    : list Setting.t :=
  (urlSettings ++
     [ {| Setting.key := "username";
          Setting.title := "Username";
          Setting.placeholder := None;
          Setting.description := None;
          Setting.type := None;
          Setting.value := Some (getUsername storage) |};
       {| Setting.key := "password";
          Setting.title := "Password";
          Setting.placeholder := None;
          Setting.description := None;
          Setting.type := Some "Password";
          Setting.value := Some (getPassword storage) |};
       {| Setting.key := "noAudio";
          Setting.title := "No Audio";
          Setting.placeholder := None;
          Setting.description :=
            Some "Enable this setting if the stream does not have audio or to mute audio.";
          Setting.type := Some "boolean";
          Setting.value := Some (Some (Js.bool_toString (isAudioDisabled storage))) |} ])%list.

Definition getSettings (storage : Storage) : list Setting.t :=
  getSettings_with (getUrlSettings storage) storage.

(** The descriptor handed to [mediaManager.createFFmpegMediaObject]. *)
Record FFMpegInput := {
  inputArguments : list string;
  mediaStreamOptions : option MediaStreamOptions;
}.

(** [getVideoStream] awaits [this.getStreamUrl()], which a subclass
    overrides; [None] is the exception of the URL constructor. *)
Definition getVideoStream_with `{UrlApi} (streamUrl : option string)
    (storage : Storage) : option FFMpegInput :=
  match URL_parse (Js.template streamUrl) with
  | None => None
  | Some url =>
      let url := URL_set_username (Js.template (Js.getItem "username" storage)) url in
      let url := URL_set_password (Js.template (Js.getItem "password" storage)) url in
      let vso := getVideoStreamOptions storage in
      Some {| inputArguments :=
                [ "-rtsp_transport"; "tcp";
                  "-analyzeduration"; "15000000";
                  "-probesize"; "10000000";
                  "-reorder_queue_size"; "1024";
                  "-max_delay"; "20000000";
                  "-i"; URL_toString url ];
              mediaStreamOptions := head vso |}
  end.

Definition getVideoStream `{UrlApi} (storage : Storage) : option FFMpegInput :=
  getVideoStream_with (getStreamUrl storage) storage.

End RtspCamera.

(** ** RtspSmartCamera: URL construction *)

(** The abstract method [getConstructedStreamUrl] of a camera family: the
    default URL it builds from the stored address and credentials. *)
Class CameraFamily := {
  getConstructedStreamUrl : Storage → string;
}.

Module RtspSmartCamera.

Definition isAnalogueCamera (storage : Storage) : bool :=
  Js.strict_eq (Js.getItem "isAnalogueCamera" storage) "true".

Definition getRtspChannel (storage : Storage) : string :=
  Js.or_else (Js.getItem "rtspChannel" storage) "".

Definition getRtspUrl (storage : Storage) : option string :=
  Js.getItem "rtspUrlOverride" storage.

Definition getRtspUrlParams (storage : Storage) : string :=
  Js.or_else (Js.getItem "rtspUrlParams" storage) "?transportmode=unicast".

Definition getAnalogueCameraUrl (storage : Storage) : string :=
  let channel := getRtspChannel storage in
  let url := getRtspUrl storage in
  let params := getRtspUrlParams storage in
  Js.template url +:+ "/" +:+ channel +:+ "01/" +:+ params.

Definition getRtspUrlOverride (storage : Storage) : option string :=
  if isAnalogueCamera storage && Js.truthy (Some (getRtspChannel storage))
  then Some (getAnalogueCameraUrl storage)
  else getRtspUrl storage.

(** [this.getRtspUrlOverride() || await this.getConstructedStreamUrl()] *)
Definition getStreamUrl `{CameraFamily} (storage : Storage) : string :=
  let override := getRtspUrlOverride storage in
  match override with
  | Some s => if Js.truthy override then s else getConstructedStreamUrl storage
  | None => getConstructedStreamUrl storage
  end.

(** [storage.getItem('httpPort') || 80] inside a template literal: the
    number on the right is printed as "80". *)
Definition getHttpAddress (storage : Storage) : string :=
  Js.template (Js.getItem "ip" storage) +:+ ":"
  +:+ Js.or_else (Js.getItem "httpPort" storage) "80".

Definition getRtspAddress (storage : Storage) : string :=
  Js.template (Js.getItem "ip" storage) +:+ ":"
  +:+ Js.or_else (Js.getItem "rtspPort" storage) "554".

Definition getUrlSettings `{CameraFamily} (storage : Storage) : list Setting.t :=
  let constructed := getConstructedStreamUrl storage in
  [ {| Setting.key := "ip";
       Setting.title := "Address";
       Setting.placeholder := Some "192.168.1.100";
       Setting.description := None;
       Setting.type := None;
       Setting.value := Some (Js.getItem "ip" storage) |};
    {| Setting.key := "httpPort";
       Setting.title := "HTTP Port Override";
       Setting.placeholder := Some "80";
       Setting.description := None;
       Setting.type := None;
       Setting.value := Some (Js.getItem "httpPort" storage) |};
    {| Setting.key := "isAnalogueCamera";
       Setting.title := "Is this an analogue camera?";
       Setting.placeholder := None;
       Setting.description :=
         Some "Turn this on if you are not using ip cameras. This will use the URL override, channel, and URL parameters to construct the RTSP url.";
       Setting.type := Some "boolean";
       Setting.value := Some (Js.getItem "isAnalogueCamera" storage) |};
    {| Setting.key := "rtspUrlOverride";
       Setting.title := "RTSP URL Override";
       Setting.placeholder := Some constructed;
       Setting.description :=
         Some ("Override the RTSP URL if your camera is using a non default port, channel, or rebroadcasted through an NVR. Default: "
               +:+ constructed);
       Setting.type := None;
       Setting.value := Some (Js.getItem "rtspUrlOverride" storage) |};
    {| Setting.key := "rtspChannel";
       Setting.title := "Channel number";
       Setting.placeholder := Some "1/2/3/etc.";
       Setting.description := Some "What channel does this camera use?";
       Setting.type := None;
       Setting.value := Some (Js.getItem "rtspChannel" storage) |};
    {| Setting.key := "rtspUrlParams";
       Setting.title := "RTSP URL Params Override";
       Setting.placeholder := Some "?transportmode=unicast&...";
       Setting.description := Some "Override the RTSP URL parameters";
       Setting.type := None;
       Setting.value := Some (Js.getItem "rtspUrlParams" storage) |} ].

(** The inherited [getSettings] and [getVideoStream], with the overridden
    [getUrlSettings] and [getStreamUrl]. *)
Definition getSettings `{CameraFamily} (storage : Storage) : list Setting.t :=
  RtspCamera.getSettings_with (getUrlSettings storage) storage.

Definition getVideoStream `{CameraFamily} `{UrlApi} (storage : Storage)
    : option RtspCamera.FFMpegInput :=
  RtspCamera.getVideoStream_with (Some (getStreamUrl storage)) storage.

(** *** The listen loop

    The object is modelled together with the part of the runtime its
    methods act on: the emitters handed out by [listenEvents], the timer
    queue of the event loop under a virtual clock (milliseconds), and the
    sequence of observable effects. *)

(** [() => this.listenLoop()], the only closure given to [setTimeout]. *)
Inductive Callback := RestartCallback.

(** [e => { this.console.error(...); setTimeout(...) }], the only closure
    registered with [on('error', ...)]. *)
Inductive Handler := ErrorHandler.

Global Instance Callback_eq_dec : EqDecision Callback.
Proof. solve_decision. Defined.

Global Instance Handler_eq_dec : EqDecision Handler.
Proof. solve_decision. Defined.

Inductive Effect :=
  | ListenEvents (emitter : nat)
  | StorageSet (key value : string)
  | ConsoleError (message error : string)
  | SetTimeout (callback : Callback) (delay : Z).

Record Timer := { due : Z; callback : Callback }.

Record State := {
  storage : Storage;
  listener : option nat;
  handlers : gmap nat (list Handler);
  listenEvents_calls : nat;
  clock : Z;
  timers : list Timer;
  effects : list Effect;
}.

Inductive Completion := Normal | Throw.

Definition set_storage (v : Storage) (w : State) : State :=
  {| storage := v; listener := listener w; handlers := handlers w;
     listenEvents_calls := listenEvents_calls w; clock := clock w;
     timers := timers w; effects := effects w |}.

Definition set_listener (v : option nat) (w : State) : State :=
  {| storage := storage w; listener := v; handlers := handlers w;
     listenEvents_calls := listenEvents_calls w; clock := clock w;
     timers := timers w; effects := effects w |}.

Definition set_handlers (v : gmap nat (list Handler)) (w : State) : State :=
  {| storage := storage w; listener := listener w; handlers := v;
     listenEvents_calls := listenEvents_calls w; clock := clock w;
     timers := timers w; effects := effects w |}.

Definition set_clock (v : Z) (w : State) : State :=
  {| storage := storage w; listener := listener w; handlers := handlers w;
     listenEvents_calls := listenEvents_calls w; clock := v;
     timers := timers w; effects := effects w |}.

Definition set_timers (v : list Timer) (w : State) : State :=
  {| storage := storage w; listener := listener w; handlers := handlers w;
     listenEvents_calls := listenEvents_calls w; clock := clock w;
     timers := v; effects := effects w |}.

Definition log_effect (e : Effect) (w : State) : State :=
  {| storage := storage w; listener := listener w; handlers := handlers w;
     listenEvents_calls := listenEvents_calls w; clock := clock w;
     timers := timers w; effects := (effects w ++ [e])%list |}.

(** Modelled from the spec: the abstract [listenEvents] of a camera family
    is the stub of the test plan, a call counter that hands out a new
    subscription object on every call ("fully replaced (not reused) on each
    restart"); a new emitter has no listeners yet. *)
Definition listenEvents (w : State) : nat * State :=
  let e := listenEvents_calls w in
  (e, log_effect (ListenEvents e)
        {| storage := storage w; listener := listener w;
           handlers := <[e := []]> (handlers w);
           listenEvents_calls := S e; clock := clock w;
           timers := timers w; effects := effects w |}).

(** [emitter.on('error', h)]: appended after the listeners already there. *)
Definition on_error (e : nat) (h : Handler) (w : State) : State :=
  set_handlers (<[e := (default [] (handlers w !! e) ++ [h])%list]> (handlers w)) w.

(** The timer queue is kept in firing order: by due time, and among equal
    due times in the order of the [setTimeout] calls. *)
Fixpoint enqueue (t : Timer) (q : list Timer) : list Timer :=
  match q with
  | [] => [t]
  | u :: q' => if (due u <=? due t)%Z then u :: enqueue t q' else t :: u :: q'
  end.

Definition setTimeout (cb : Callback) (delay : Z) (w : State) : State :=
  log_effect (SetTimeout cb delay)
    (set_timers (enqueue {| due := (clock w + delay)%Z; callback := cb |} (timers w)) w).

Definition console_error (message error : string) (w : State) : State :=
  log_effect (ConsoleError message error) w.

Definition listenLoop (w : State) : State :=
  let '(e, w1) := listenEvents w in
  on_error e ErrorHandler (set_listener (Some e) w1).

Definition restart_message : string :=
  "listen loop error, restarting in 10 seconds".

Definition run_handler (error : string) (w : State) (h : Handler) : State :=
  match h with
  | ErrorHandler =>
      setTimeout RestartCallback 10000 (console_error restart_message error w)
  end.

(** [emitter.emit('error', e)]: the listeners run synchronously, in
    registration order; with no listener the emitter throws. *)
Definition emit_error (e : nat) (error : string) (w : State) : State * Completion :=
  match handlers w !! e with
  | Some (h :: hs) => (foldl (run_handler error) w (h :: hs), Normal)
  | _ => (w, Throw)
  end.

(** An error event of the subscription [this.listener] currently refers to. *)
Definition subscription_error (error : string) (w : State) : State * Completion :=
  match listener w with
  | Some e => emit_error e error w
  | None => (w, Throw)
  end.

Definition putSetting `{Platform} (key : string) (value : SettingValue)
    (w : State) : State * Completion :=
  let w1 := log_effect (StorageSet key (toString value))
              (set_storage (RtspCamera.putSetting key value (storage w)) w) in
  match listener w1 with
  | Some e => emit_error e "new settings" w1
  | None => (w1, Throw)
  end.

(** [new RtspSmartCamera(...)] over a stored configuration, at time [now]. *)
Definition construct (config : Storage) (now : Z) : State :=
  listenLoop {| storage := config; listener := None; handlers := ∅;
                listenEvents_calls := 0; clock := now; timers := [];
                effects := [] |}.

Definition run_callback (cb : Callback) (w : State) : State :=
  match cb with
  | RestartCallback => listenLoop w
  end.

(** The event loop under the virtual clock: fire the timers that are due by
    [target], earliest first.  No callback of this class schedules a timer
    (see [listenLoop_timers]), so one unit of fuel per pending timer lets the
    loop run until nothing is due (see [advance_nothing_due]). *)
Fixpoint run_timers (fuel : nat) (target : Z) (w : State) : State :=
  match fuel, timers w with
  | S fuel', t :: rest =>
      if (due t <=? target)%Z
      then run_timers fuel' target
             (run_callback (callback t)
                (set_timers rest (set_clock (Z.max (clock w) (due t)) w)))
      else w
  | _, _ => w
  end.

Definition advance (dt : Z) (w : State) : State :=
  let target := (clock w + dt)%Z in
  let w' := run_timers (length (timers w)) target w in
  set_clock (Z.max (clock w') target) w'.

(** A scheduler turn in which no time passes. *)
Definition turn (w : State) : State := advance 0 w.

(** The queue fires in order of due time. *)
Fixpoint ordered (q : list Timer) : bool :=
  match q with
  | [] => true
  | t :: q' => forallb (λ u, (due t <=? due u)%Z) q' && ordered q'
  end.

(** The [Listening] state of the loop: [this.listener] is a subscription
    carrying exactly the restart handler. *)
Definition listening (w : State) : bool :=
  match listener w with
  | Some e => bool_decide (handlers w !! e = Some [ErrorHandler])
  | None => false
  end.

Definition well_formed (w : State) : bool :=
  listening w && ordered (timers w).

(** Faults of the active subscription, one after the other, each followed
    by the ten seconds its restart takes. *)
Fixpoint error_cycles (errors : list string) (w : State) : State :=
  match errors with
  | [] => w
  | error :: errors' =>
      error_cycles errors' (advance 10000 (subscription_error error w).1)
  end.

(** The number of pending timers that are due by [target]. *)
Definition due_by (target : Z) (q : list Timer) : nat :=
  length (filter (λ t, (due t ≤ target)%Z) q).

(** The prompt reading of [putSetting]: the value is written and the one
    new [listenEvents] call has happened by the end of the turn the call
    runs in, or of the next one. *)
Definition reacquires_within_a_turn `{Platform} (key : string)
    (value : SettingValue) (w : State) : Prop :=
  let w' := (putSetting key value w).1 in
  storage w' = <[key := toString value]> (storage w)
  ∧ (listenEvents_calls w' = S (listenEvents_calls w)
     ∨ listenEvents_calls (turn w') = S (listenEvents_calls w)).

(** What can happen to a constructed camera: a [putSetting] call, an error
    event of any subscription (the active one or an abandoned one), and
    time passing. *)
Inductive Step `{Platform} :=
  | StepPutSetting (key : string) (value : SettingValue)
  | StepError (emitter : nat) (error : string)
  | StepAdvance (dt : Z).

Definition step `{Platform} (w : State) (s : Step) : State :=
  match s with
  | StepPutSetting key value => (putSetting key value w).1
  | StepError emitter error => (emit_error emitter error w).1
  | StepAdvance dt => advance dt w
  end.

Definition run_steps `{Platform} (steps : list Step) (w : State) : State :=
  foldl step w steps.

(** The settings writes among the steps, in order. *)
Definition writes `{Platform} (steps : list Step) (config : Storage) : Storage :=
  foldl (λ config s,
           match s with
           | StepPutSetting key value => <[key := toString value]> config
           | _ => config
           end) config steps.

(** Several [putSetting] calls in a row. *)
Definition putSettings `{Platform} (entries : list (string * SettingValue))
    (w : State) : State :=
  foldl (λ w entry, (putSetting entry.1 entry.2 w).1) w entries.

(** [this.listener] is the emitter of the latest [listenEvents] call, every
    emitter handed out so far carries the restart handler and nothing else,
    and every pending restart is due within ten seconds. *)
Definition invariant (w : State) : Prop :=
  (0 < listenEvents_calls w)%nat
  ∧ listener w = Some (pred (listenEvents_calls w))
  ∧ (∀ e, (e < listenEvents_calls w)%nat → handlers w !! e = Some [ErrorHandler])
  ∧ (∀ e, (listenEvents_calls w ≤ e)%nat → handlers w !! e = None)
  ∧ ordered (timers w) = true
  ∧ Forall (λ t, (due t ≤ clock w + 10000)%Z) (timers w).

End RtspSmartCamera.


(** ** RtspProvider *)

(** The members of the SDK enumerations the provider names; every other
    member is kept by its name. *)
Inductive ScryptedInterface :=
  | VideoCamera
  | Settings
  | OtherInterface (name : string).

Inductive ScryptedDeviceType :=
  | Camera
  | OtherDeviceType (name : string).

Global Instance ScryptedInterface_eq_dec : EqDecision ScryptedInterface.
Proof. solve_decision. Defined.

(** An adapter object as the registry sees it.  Its configuration is not
    part of the object: the host keeps it under the [nativeId], so two
    adapters built for one identifier read the same settings and differ
    only in identity.  Objects live in a heap and are referred to by their
    address. *)
Record Adapter := { adapter_nativeId : string }.

Abbreviation Heap := (list Adapter).

(** The overridable methods of the provider.  [createCamera] allocates; a
    subclass may also answer a falsy value ([None]), which [getDevice]
    guards against. *)
Class ProviderMethods := {
  getAdditionalInterfaces : list ScryptedInterface;
  createCamera : string → Heap → option nat * Heap;
}.

Module RtspProvider.

(** [new RtspCamera(nativeId)]: a new object at the next address. *)
Definition new_RtspCamera (nativeId : string) (heap : Heap) : option nat * Heap :=
  (Some (length heap), (heap ++ [ {| adapter_nativeId := nativeId |} ])%list).

(** The methods as [RtspProvider] itself defines them. *)
Definition base : ProviderMethods :=
  {| getAdditionalInterfaces := [];
     createCamera := new_RtspCamera |}.

Record Device := {
  nativeId : string;
  name : string;
  interfaces : list ScryptedInterface;
  type : ScryptedDeviceType;
}.

(** What the host platform observes. *)
Inductive Notification :=
  | OnDeviceDiscovered (device : Device)
  | Alert (text : string)
  | ClearAlert (text : string).

Record State := {
  devices : gmap string nat;
  heap : Heap;
  random_calls : nat;
  notifications : list Notification;
}.

Definition getDevice `{ProviderMethods} (nativeId : string) (p : State)
    : option nat * State :=
  match devices p !! nativeId with
  | Some ret => (Some ret, p)
  | None =>
      let '(ret, heap') := createCamera nativeId (heap p) in
      match ret with
      | Some r =>
          (ret, {| devices := <[nativeId := r]> (devices p); heap := heap';
                   random_calls := random_calls p;
                   notifications := notifications p |})
      | None =>
          (ret, {| devices := devices p; heap := heap';
                   random_calls := random_calls p;
                   notifications := notifications p |})
      end
  end.

(** The constructor warms the registry with the identifiers the host
    knows; the falsy ones (the provider's own, absent identifier) are
    skipped. *)
Definition construct `{ProviderMethods} (nativeIds : list (option string)) : State :=
  foldl (λ p camId,
           match camId with
           | Some id => if Js.truthy camId then snd (getDevice id p) else p
           | None => p
           end)
        {| devices := ∅; heap := []; random_calls := 0; notifications := [] |}
        nativeIds.

Definition alert_text (name : string) : string :=
  "New Camera " +:+ name +:+ " ready. Check the notification area to complete setup.".

Definition putSetting `{Platform} `{ProviderMethods} (key : string)
    (value : SettingValue) (p : State) : State :=
  let nativeId := number_toString (Math_random (random_calls p)) in
  let name := toString value in
  let text := alert_text name in
  {| devices := devices p; heap := heap p;
     random_calls := S (random_calls p);
     notifications :=
       (notifications p ++
          [ OnDeviceDiscovered
              {| nativeId := nativeId; name := name;
                 interfaces := VideoCamera :: Settings :: getAdditionalInterfaces;
                 type := Camera |};
            Alert text;
            ClearAlert text ])%list |}.

(** The identifiers announced to the host so far. *)
Definition discovered_ids (p : State) : list string :=
  omap (λ n, match n with
             | OnDeviceDiscovered d => Some (nativeId d)
             | _ => None
             end) (notifications p).

(** Every identifier announced so far is the spelling of one draw of
    [Math.random()], in order. *)
Definition ids_from_draws `{Platform} (p : State) : Prop :=
  discovered_ids p
  = (λ i, number_toString (Math_random i)) <$> seq 0 (random_calls p).

(** The reading of [putSetting] under which the announced identifier is
    one that was never announced before. *)
Definition announces_fresh_device `{Platform} `{ProviderMethods} (key : string)
    (value : SettingValue) (p : State) : Prop :=
  ∃ id,
    notifications (putSetting key value p)
    = (notifications p ++
         [ OnDeviceDiscovered
             {| nativeId := id; name := toString value;
                interfaces := VideoCamera :: Settings :: getAdditionalInterfaces;
                type := Camera |};
           Alert (alert_text (toString value));
           ClearAlert (alert_text (toString value)) ])%list
    ∧ id ∉ discovered_ids p.

(** What the host and the operator can ask of a provider, and a sequence
    of such requests. *)
Inductive Call `{Platform} :=
  | CallGetDevice (nativeId : string)
  | CallPutSetting (key : string) (value : SettingValue).

Definition call `{Platform} `{ProviderMethods} (p : State) (c : Call) : State :=
  match c with
  | CallGetDevice nativeId => (getDevice nativeId p).2
  | CallPutSetting key value => putSetting key value p
  end.

Definition run `{Platform} `{ProviderMethods} (calls : list Call) (p : State) : State :=
  foldl call p calls.

(** Every registry entry refers to an adapter that was built for its
    identifier, and the heap holds no other adapter. *)
Definition registry_ok (p : State) : Prop :=
  (∀ id r, devices p !! id = Some r →
     heap p !! r = Some {| adapter_nativeId := id |})
  ∧ size (devices p) = length (heap p).

(** What one [putSetting] for a camera named [name] under [id] tells the
    host. *)
Definition announcement `{ProviderMethods} (id_name : string * string)
    : list Notification :=
  [ OnDeviceDiscovered
      {| nativeId := id_name.1; name := id_name.2;
         interfaces := VideoCamera :: Settings :: getAdditionalInterfaces;
         type := Camera |};
    Alert (alert_text id_name.2);
    ClearAlert (alert_text id_name.2) ].

(** The identifiers of [n] draws of [Math.random()], from the [start]-th
    draw on. *)
Definition draws `{Platform} (start n : nat) : list string :=
  (λ i, number_toString (Math_random i)) <$> seq start n.

(** The names given by the [putSetting] calls among [calls], in order. *)
Definition names_put `{Platform} (calls : list Call) : list string :=
  omap (λ c, match c with
             | CallPutSetting _ value => Some (toString value)
             | CallGetDevice _ => None
             end) calls.

End RtspProvider.

(** ** Concrete collaborators for the worked examples *)

Module Sample.

(** Two of the doubles [Math.random()] can return, with the way
    JavaScript prints them. *)
Inductive Dyadic := Half | Quarter.

Definition Dyadic_toString (d : Dyadic) : string :=
  match d with
  | Half => "0.5"
  | Quarter => "0.25"
  end.

(** A generator whose draws repeat. *)
Definition repeating : Platform :=
  {| number := Dyadic; number_toString := Dyadic_toString;
     Math_random := λ _, Half |}.

(** A generator whose second draw differs from the first. *)
Definition varying : Platform :=
  {| number := Dyadic; number_toString := Dyadic_toString;
     Math_random := λ n, match n with 0 => Half | _ => Quarter end |}.

(** A camera family that builds its default URL from the stored address. *)
Definition family : CameraFamily :=
  {| getConstructedStreamUrl := λ storage,
       "rtsp://" +:+ Js.template (Js.getItem "ip" storage) +:+ ":554/stream" |}.

Definition analogue : Storage :=
  <["isAnalogueCamera" := "true"]>
    (<["rtspChannel" := "2"]>
       (<["rtspUrlOverride" := "rtsp://host"]>
          (<["rtspUrlParams" := "?x=1"]> ∅))).

Definition analogue_without_url : Storage :=
  <["isAnalogueCamera" := "true"]> (<["rtspChannel" := "2"]> ∅).

Definition digital : Storage :=
  <["ip" := "192.168.1.100"]> (<["rtspChannel" := "2"]> ∅).

(** A smart camera right after construction, at time 0. *)
Definition camera : RtspSmartCamera.State :=
  RtspSmartCamera.construct digital 0.

(** A provider of the base class that has announced one camera. *)
Definition provider : RtspProvider.State :=
  RtspProvider.putSetting (H := repeating) (H0 := RtspProvider.base)
    "new-camera" (VString "Front Door")
    (RtspProvider.construct (H := RtspProvider.base) []).

Definition provider_varying : RtspProvider.State :=
  RtspProvider.putSetting (H := varying) (H0 := RtspProvider.base)
    "new-camera" (VString "Front Door")
    (RtspProvider.construct (H := RtspProvider.base) []).

End Sample.

(** * Properties *)

(** ** JavaScript helpers *)

Lemma append_empty (b : string) : "" +:+ b = b.
Proof. reflexivity. Qed.

Lemma append_cons (ch : Ascii.ascii) (a b : string) :
  String ch a +:+ b = String ch (a +:+ b).
Proof. reflexivity. Qed.

Lemma append_assoc (a b c : string) : (a +:+ b) +:+ c = a +:+ b +:+ c.
Proof.
  induction a as [|ch a IH]; [reflexivity|].
  rewrite !append_cons. f_equal. exact IH.
Qed.

(** Unfold an append whose left operand is a literal. *)
Ltac literal_append := rewrite ?append_cons, ?append_empty.

Lemma strict_eq_true (v : option string) (lit : string) :
  Js.strict_eq v lit = true ↔ v = Some lit.
Proof.
  destruct v as [s|]; simpl.
  - rewrite bool_decide_eq_true. split; [intros ->; reflexivity | congruence].
  - split; discriminate.
Qed.

Lemma strict_eq_false (v : option string) (lit : string) :
  Js.strict_eq v lit = false ↔ v ≠ Some lit.
Proof.
  rewrite <- strict_eq_true. destruct (Js.strict_eq v lit); split; congruence.
Qed.

Lemma truthy_true (v : option string) :
  Js.truthy v = true ↔ ∃ s, v = Some s ∧ s ≠ "".
Proof.
  destruct v as [s|]; simpl.
  - rewrite negb_true_iff, bool_decide_eq_false. split.
    + intros Hs. exists s. split; [reflexivity | exact Hs].
    + intros (s' & [= ->] & Hs). exact Hs.
  - split; [discriminate | intros (s & [=] & _)].
Qed.

Lemma truthy_nonempty (s : string) : s ≠ "" → Js.truthy (Some s) = true.
Proof. intros Hs. apply truthy_true. eauto. Qed.

Lemma or_else_truthy (s lit : string) : s ≠ "" → Js.or_else (Some s) lit = s.
Proof. intros Hs. unfold Js.or_else. now rewrite truthy_nonempty. Qed.

Lemma or_else_falsy (v : option string) (lit : string) :
  v = None ∨ v = Some "" → Js.or_else v lit = lit.
Proof. intros [-> | ->]; reflexivity. Qed.

(** ** RtspCamera *)

Section camera_properties.
Import RtspCamera.

(** C1: a configuration without [noAudio], or with any [noAudio] other than
    the string "true", yields one capability descriptor that has an audio
    capability; with [noAudio] exactly "true" the one descriptor has no
    audio capability.  The video capability is present in all cases. *)
Theorem getVideoStreamOptions_audio (storage : Storage) :
  (storage !! "noAudio" = None →
     getVideoStreamOptions storage
     = [ {| video := Some Build_Constraints; audio := Some Build_Constraints |} ])
  ∧ (∀ s, storage !! "noAudio" = Some s → s ≠ "true" →
     getVideoStreamOptions storage
     = [ {| video := Some Build_Constraints; audio := Some Build_Constraints |} ])
  ∧ (storage !! "noAudio" = Some "true" →
     getVideoStreamOptions storage
     = [ {| video := Some Build_Constraints; audio := None |} ]).
Proof.
  unfold getVideoStreamOptions, isAudioDisabled, Js.getItem.
  repeat split.
  - intros ->. reflexivity.
  - intros s -> Hs. simpl. now rewrite bool_decide_eq_false_2.
  - intros ->. reflexivity.
Qed.

End camera_properties.

(** ** RtspSmartCamera: URL construction *)

Section url_properties.
Import RtspSmartCamera.
Context `{CameraFamily}.

Lemma isAnalogueCamera_true (storage : Storage) :
  isAnalogueCamera storage = true ↔ storage !! "isAnalogueCamera" = Some "true".
Proof. apply strict_eq_true. Qed.

Lemma getRtspChannel_set (storage : Storage) (channel : string) :
  storage !! "rtspChannel" = Some channel → channel ≠ "" →
  getRtspChannel storage = channel.
Proof.
  intros Hc Hne. unfold getRtspChannel, Js.getItem. rewrite Hc.
  now apply or_else_truthy.
Qed.

Lemma getRtspChannel_empty (storage : Storage) :
  storage !! "rtspChannel" = None ∨ storage !! "rtspChannel" = Some "" →
  getRtspChannel storage = "".
Proof. apply or_else_falsy. Qed.

Lemma analogue_branch_taken (storage : Storage) (channel : string) :
  storage !! "isAnalogueCamera" = Some "true" →
  storage !! "rtspChannel" = Some channel →
  channel ≠ "" →
  getRtspUrlOverride storage = Some (getAnalogueCameraUrl storage).
Proof.
  intros Ha Hc Hne. unfold getRtspUrlOverride.
  rewrite (proj2 (isAnalogueCamera_true storage) Ha).
  rewrite (getRtspChannel_set storage channel Hc Hne).
  now rewrite (truthy_nonempty channel Hne).
Qed.

Lemma raw_branch_taken (storage : Storage) :
  isAnalogueCamera storage = false ∨ getRtspChannel storage = "" →
  getRtspUrlOverride storage = getRtspUrl storage.
Proof.
  unfold getRtspUrlOverride. intros [-> | ->]; [reflexivity|].
  simpl. now rewrite andb_false_r.
Qed.

(** C2: with [isAnalogueCamera] "true" and a channel set, the override is
    the stored [rtspUrlOverride], a slash, the channel immediately followed
    by the two characters "01", a slash, and the params; for channel "2",
    override "rtsp://host" and params "?x=1" this is exactly
    "rtsp://host/201/?x=1". *)
Theorem getRtspUrlOverride_analogue (storage : Storage) (channel : string) :
  storage !! "isAnalogueCamera" = Some "true" →
  storage !! "rtspChannel" = Some channel →
  channel ≠ "" →
  getRtspUrlOverride storage
  = Some (Js.template (storage !! "rtspUrlOverride")
          +:+ "/" +:+ (channel +:+ "01") +:+ "/" +:+ getRtspUrlParams storage)
  ∧ (∀ url, storage !! "rtspUrlOverride" = Some url →
       getRtspUrlOverride storage
       = Some (url +:+ "/" +:+ (channel +:+ "01") +:+ "/" +:+ getRtspUrlParams storage))
  ∧ (channel = "2" →
     storage !! "rtspUrlOverride" = Some "rtsp://host" →
     storage !! "rtspUrlParams" = Some "?x=1" →
     getRtspUrlOverride storage = Some "rtsp://host/201/?x=1").
Proof.
  intros Ha Hc Hne.
  rewrite (analogue_branch_taken storage channel Ha Hc Hne).
  unfold getAnalogueCameraUrl, getRtspUrl, Js.getItem.
  rewrite (getRtspChannel_set storage channel Hc Hne).
  assert (Hshape : ∀ u p, u +:+ "/" +:+ channel +:+ "01/" +:+ p
                          = u +:+ "/" +:+ (channel +:+ "01") +:+ "/" +:+ p).
  { intros u p. now rewrite (append_assoc channel). }
  split; [|split].
  - now rewrite Hshape.
  - intros url ->. now rewrite Hshape.
  - intros -> -> Hp. unfold getRtspUrlParams, Js.getItem. rewrite Hp. reflexivity.
Qed.

(** C6: while [isAnalogueCamera] is unset or anything but "true", or while
    the channel is empty (unset or the empty string), the override is the
    stored [rtspUrlOverride] as it is: the same string, the empty string
    included, and the absent value when it was never set. *)
Theorem getRtspUrlOverride_raw (storage : Storage) :
  storage !! "isAnalogueCamera" ≠ Some "true"
  ∨ storage !! "rtspChannel" = None
  ∨ storage !! "rtspChannel" = Some "" →
  getRtspUrlOverride storage = storage !! "rtspUrlOverride".
Proof.
  intros Hcase. apply raw_branch_taken.
  destruct Hcase as [Ha | Hc].
  - left. now apply strict_eq_false.
  - right. now apply getRtspChannel_empty.
Qed.

Lemma getStreamUrl_truthy (storage : Storage) (url : string) :
  getRtspUrlOverride storage = Some url → url ≠ "" → getStreamUrl storage = url.
Proof.
  unfold getStreamUrl. intros -> Hne. now rewrite (truthy_nonempty url Hne).
Qed.

Lemma getStreamUrl_falsy (storage : Storage) :
  getRtspUrlOverride storage = Some "" ∨ getRtspUrlOverride storage = None →
  getStreamUrl storage = getConstructedStreamUrl storage.
Proof. unfold getStreamUrl. intros [-> | ->]; reflexivity. Qed.

(** C5: [getStreamUrl] answers the override whenever the override is a
    non-empty string, and the family's constructed URL whenever the
    override is empty or absent. *)
Theorem getStreamUrl_override_or_constructed (storage : Storage) :
  (∀ url, getRtspUrlOverride storage = Some url → url ≠ "" →
     getStreamUrl storage = url)
  ∧ (getRtspUrlOverride storage = Some "" ∨ getRtspUrlOverride storage = None →
     getStreamUrl storage = getConstructedStreamUrl storage).
Proof.
  split; [apply getStreamUrl_truthy | apply getStreamUrl_falsy].
Qed.

(** C10: the params component is "?transportmode=unicast" when
    [rtspUrlParams] is absent or empty and the stored value otherwise, and
    it is this component that closes the analogue-camera URL. *)
Theorem getRtspUrlParams_default (storage : Storage) :
  (storage !! "rtspUrlParams" = None ∨ storage !! "rtspUrlParams" = Some "" →
     getRtspUrlParams storage = "?transportmode=unicast")
  ∧ (∀ params, storage !! "rtspUrlParams" = Some params → params ≠ "" →
     getRtspUrlParams storage = params)
  ∧ getAnalogueCameraUrl storage
    = Js.template (getRtspUrl storage) +:+ "/" +:+ getRtspChannel storage
      +:+ "01/" +:+ getRtspUrlParams storage.
Proof.
  unfold getRtspUrlParams, Js.getItem. split; [|split].
  - apply or_else_falsy.
  - intros params -> Hne. now apply or_else_truthy.
  - reflexivity.
Qed.

(** C9: with [isAnalogueCamera] "true", a channel set and no
    [rtspUrlOverride] stored, the analogue-camera URL spells the absent
    value out: it is "null/", the channel, "01/" and the params, hence
    non-empty; the override is that string, and [getStreamUrl] answers it
    whatever the constructed URL would have been. *)
Theorem absent_override_spelled_null (storage : Storage) (channel : string) :
  storage !! "isAnalogueCamera" = Some "true" →
  storage !! "rtspChannel" = Some channel →
  channel ≠ "" →
  storage !! "rtspUrlOverride" = None →
  getAnalogueCameraUrl storage
  = "null/" +:+ channel +:+ "01/" +:+ getRtspUrlParams storage
  ∧ String.prefix "null/" (getAnalogueCameraUrl storage) = true
  ∧ getAnalogueCameraUrl storage ≠ ""
  ∧ getRtspUrlOverride storage = Some (getAnalogueCameraUrl storage)
  ∧ getStreamUrl storage = getAnalogueCameraUrl storage.
Proof.
  intros Ha Hc Hne Hu.
  assert (Hurl : getAnalogueCameraUrl storage
                 = "null/" +:+ channel +:+ "01/" +:+ getRtspUrlParams storage).
  { unfold getAnalogueCameraUrl, getRtspUrl, Js.getItem.
    rewrite Hu, (getRtspChannel_set storage channel Hc Hne). reflexivity. }
  assert (Hov := analogue_branch_taken storage channel Ha Hc Hne).
  assert (Hnonempty : getAnalogueCameraUrl storage ≠ "").
  { rewrite Hurl. literal_append. discriminate. }
  split; [exact Hurl|]. split; [|split; [exact Hnonempty|split; [exact Hov|]]].
  - rewrite Hurl. literal_append. simpl.
    now destruct (channel +:+ _).
  - now apply getStreamUrl_truthy.
Qed.

End url_properties.

(** ** RtspSmartCamera: the listen loop *)

Section listen_loop_properties.
Import RtspSmartCamera.

(** *** What one [listenLoop] call changes *)

Lemma listenLoop_timers (w : State) : timers (listenLoop w) = timers w.
Proof. reflexivity. Qed.

Lemma listenLoop_calls (w : State) :
  listenEvents_calls (listenLoop w) = S (listenEvents_calls w).
Proof. reflexivity. Qed.

Lemma listenLoop_storage (w : State) : storage (listenLoop w) = storage w.
Proof. reflexivity. Qed.

Lemma listenLoop_clock (w : State) : clock (listenLoop w) = clock w.
Proof. reflexivity. Qed.

Lemma listenLoop_listening (w : State) : listening (listenLoop w) = true.
Proof.
  unfold listening, listenLoop, on_error. simpl.
  apply bool_decide_eq_true. rewrite !lookup_insert_eq. reflexivity.
Qed.

(** *** The timer queue *)

Lemma forallb_enqueue (f : Timer → bool) (t : Timer) (q : list Timer) :
  f t = true → forallb f q = true → forallb f (enqueue t q) = true.
Proof.
  intros Ht. induction q as [|u q IH]; simpl.
  - now rewrite Ht.
  - intros [Hu Hq]%andb_true_iff. destruct (due u <=? due t)%Z; simpl.
    + now rewrite Hu, IH.
    + now rewrite Ht, Hu, Hq.
Qed.

Lemma forallb_due_le (a b : Z) (q : list Timer) :
  (a ≤ b)%Z →
  forallb (λ u, (b <=? due u)%Z) q = true →
  forallb (λ u, (a <=? due u)%Z) q = true.
Proof.
  intros Hab. induction q as [|u q IH]; simpl; [reflexivity|].
  intros [Hu Hq]%andb_true_iff. rewrite (IH Hq), andb_true_r. lia.
Qed.

Lemma ordered_enqueue (t : Timer) (q : list Timer) :
  ordered q = true → ordered (enqueue t q) = true.
Proof.
  induction q as [|u q IH]; simpl; [reflexivity|].
  intros [Hu Hq]%andb_true_iff.
  destruct (due u <=? due t)%Z eqn:Hle; simpl.
  - rewrite (IH Hq), andb_true_r. now apply forallb_enqueue.
  - rewrite Hu, Hq, !andb_true_r. apply andb_true_iff. split; [lia|].
    apply (forallb_due_le (due t) (due u)); [lia | exact Hu].
Qed.

Lemma due_by_nil (target : Z) : due_by target [] = 0%nat.
Proof. reflexivity. Qed.

Lemma due_by_cons (target : Z) (t : Timer) (q : list Timer) :
  due_by target (t :: q)
  = ((if (due t <=? target)%Z then 1 else 0) + due_by target q)%nat.
Proof.
  unfold due_by. destruct (due t <=? target)%Z eqn:Hle.
  - rewrite filter_cons_True by lia. reflexivity.
  - rewrite filter_cons_False by lia. reflexivity.
Qed.

Lemma due_by_enqueue (target : Z) (t : Timer) (q : list Timer) :
  due_by target (enqueue t q)
  = ((if (due t <=? target)%Z then 1 else 0) + due_by target q)%nat.
Proof.
  induction q as [|u q IH]; simpl.
  - apply due_by_cons.
  - destruct (due u <=? due t)%Z.
    + rewrite !due_by_cons, IH. lia.
    + rewrite !due_by_cons. reflexivity.
Qed.

Lemma due_by_none (target : Z) (t : Timer) (q : list Timer) :
  (target < due t)%Z →
  forallb (λ u, (due t <=? due u)%Z) q = true →
  due_by target q = 0%nat.
Proof.
  intros Ht. induction q as [|u q IH]; simpl; [reflexivity|].
  intros [Hu Hq]%andb_true_iff. rewrite due_by_cons, (IH Hq).
  destruct (due u <=? target)%Z eqn:Hle; [lia | reflexivity].
Qed.

(** *** Running the timers that are due *)

(** With one unit of fuel per pending timer the loop fires exactly the
    timers due by [target]: that many [listenEvents] calls are made, the
    settings are untouched, and the state is [Listening] again as soon as
    one timer fired. *)
Lemma run_timers_spec (target : Z) (q : list Timer) :
  ∀ w, timers w = q → ordered q = true →
    let w' := run_timers (length q) target w in
    listenEvents_calls w' = (listenEvents_calls w + due_by target q)%nat
    ∧ storage w' = storage w
    ∧ ordered (timers w') = true
    ∧ due_by target (timers w') = 0%nat
    ∧ (listening w = true → listening w' = true)
    ∧ length (timers w') = (length q - due_by target q)%nat.
Proof.
  induction q as [|t q IH]; intros w Hq Hord; simpl.
  - rewrite Hq. simpl. rewrite !due_by_nil.
    repeat split; auto; lia.
  - rewrite Hq. simpl in Hord. apply andb_true_iff in Hord as [Ht Hord].
    rewrite due_by_cons. destruct (due t <=? target)%Z eqn:Hle.
    + destruct t as [d []]. simpl in *.
      set (w1 := listenLoop (set_timers q (set_clock (Z.max (clock w) d) w))).
      destruct (IH w1 eq_refl Hord) as (Hc & Hs & Ho & Hd & Hl & Hn).
      fold w1. rewrite Hc, Hs, Hn. subst w1.
      rewrite listenLoop_calls, listenLoop_storage.
      simpl. repeat split; auto with lia.
      intros _. apply Hl, listenLoop_listening.
    + rewrite Hq. simpl. rewrite Ht, Hord. simpl.
      assert (Hnone : due_by target q = 0%nat).
      { apply (due_by_none target t); [lia | exact Ht]. }
      rewrite due_by_cons, Hle, Hnone. repeat split; auto with lia.
Qed.

Lemma advance_spec (dt : Z) (w : State) :
  ordered (timers w) = true →
  listenEvents_calls (advance dt w)
  = (listenEvents_calls w + due_by (clock w + dt) (timers w))%nat
  ∧ storage (advance dt w) = storage w
  ∧ ordered (timers (advance dt w)) = true
  ∧ (listening w = true → listening (advance dt w) = true)
  ∧ length (timers (advance dt w))
    = (length (timers w) - due_by (clock w + dt) (timers w))%nat.
Proof.
  intros Hord.
  destruct (run_timers_spec (clock w + dt) (timers w) w eq_refl Hord)
    as (Hc & Hs & Ho & _ & Hl & Hn).
  unfold advance. simpl. auto.
Qed.

(** The loop runs to completion: after [advance] no pending timer is due. *)
Lemma advance_nothing_due (dt : Z) (w : State) :
  ordered (timers w) = true →
  due_by (clock w + dt) (timers (advance dt w)) = 0%nat.
Proof.
  intros Hord.
  now destruct (run_timers_spec (clock w + dt) (timers w) w eq_refl Hord)
    as (_ & _ & _ & Hd & _).
Qed.

(** *** The error handler *)

Lemma listening_emit (error : string) (w : State) (e : nat) :
  listener w = Some e → listening w = true →
  emit_error e error w
  = (setTimeout RestartCallback 10000 (console_error restart_message error w),
     Normal).
Proof.
  unfold listening, emit_error. intros ->.
  rewrite bool_decide_eq_true. intros ->. reflexivity.
Qed.

(** Logging and scheduling leave the loop [Listening] on the same
    subscription, and add one restart that is due ten seconds from now. *)
Lemma handler_spec (error : string) (w : State) :
  well_formed w = true →
  let w' := setTimeout RestartCallback 10000
              (console_error restart_message error w) in
  well_formed w' = true
  ∧ listener w' = listener w
  ∧ storage w' = storage w
  ∧ listenEvents_calls w' = listenEvents_calls w
  ∧ clock w' = clock w
  ∧ timers w'
    = enqueue {| due := (clock w + 10000)%Z; callback := RestartCallback |} (timers w)
  ∧ effects w'
    = (effects w ++ [ConsoleError restart_message error;
                     SetTimeout RestartCallback 10000])%list
  ∧ ∀ dt, listenEvents_calls (advance dt w')
          = ((if (10000 <=? dt)%Z then 1 else 0)
             + listenEvents_calls (advance dt w))%nat.
Proof.
  intros [Hl Ho]%andb_true_iff w'. unfold well_formed.
  assert (Ho' : ordered (timers w') = true) by now apply ordered_enqueue.
  repeat split.
  - apply andb_true_iff. split; [exact Hl | exact Ho'].
  - subst w'. simpl. now rewrite <- app_assoc.
  - intros dt.
    destruct (advance_spec dt w Ho) as (-> & _).
    destruct (advance_spec dt w' Ho') as (-> & _).
    subst w'. simpl. rewrite due_by_enqueue. simpl.
    replace (clock w + 10000 <=? clock w + dt)%Z with (10000 <=? dt)%Z by lia.
    lia.
Qed.

End listen_loop_properties.

Section listen_loop_restart.
Import RtspSmartCamera.

Lemma subscription_error_listening (error : string) (w : State) :
  listening w = true →
  subscription_error error w
  = (setTimeout RestartCallback 10000 (console_error restart_message error w),
     Normal).
Proof.
  intros Hl. unfold subscription_error.
  destruct (listener w) as [e|] eqn:He.
  - now apply listening_emit.
  - unfold listening in Hl. now rewrite He in Hl.
Qed.

(** *** The states the object goes through are well formed *)

Lemma well_formed_construct (config : Storage) (now : Z) :
  well_formed (construct config now) = true.
Proof.
  unfold well_formed, construct.
  now rewrite listenLoop_listening, listenLoop_timers.
Qed.

Lemma well_formed_run_handler (error : string) (h : Handler) (w : State) :
  well_formed w = true → well_formed (run_handler error w h) = true.
Proof. destruct h. intros Hwf. now apply (handler_spec error w Hwf). Qed.

(** An error event of any subscription ever handed out, abandoned ones
    included. *)
Lemma well_formed_emit_error (e : nat) (error : string) (w : State) :
  well_formed w = true → well_formed (emit_error e error w).1 = true.
Proof.
  intros Hwf. unfold emit_error.
  destruct (handlers w !! e) as [[|h hs]|]; try exact Hwf.
  cbn [fst]. generalize (h :: hs). intros l. revert w Hwf.
  induction l as [|h' l IH]; intros w Hwf; [exact Hwf|].
  simpl. apply IH. now apply well_formed_run_handler.
Qed.

Lemma well_formed_advance (dt : Z) (w : State) :
  well_formed w = true → well_formed (advance dt w) = true.
Proof.
  unfold well_formed. intros [Hl Ho]%andb_true_iff.
  destruct (advance_spec dt w Ho) as (_ & _ & Ho' & Hl' & _).
  now rewrite (Hl' Hl), Ho'.
Qed.

(** One fault and the ten seconds after it, starting with an empty timer
    queue: one more subscription, the queue empty again, the loop
    [Listening]. *)
Lemma error_cycle_spec (error : string) (w : State) :
  well_formed w = true → timers w = [] →
  let w2 := advance 10000 (subscription_error error w).1 in
  well_formed w2 = true
  ∧ timers w2 = []
  ∧ listenEvents_calls w2 = S (listenEvents_calls w).
Proof.
  intros Hwf Hq w2.
  assert (Hl : listening w = true).
  { unfold well_formed in Hwf. now apply andb_true_iff in Hwf as [? _]. }
  subst w2. rewrite (subscription_error_listening error w Hl). cbn [fst].
  destruct (handler_spec error w Hwf) as (Hwf' & _ & _ & Hc & Hk & Ht & _ & _).
  set (w' := setTimeout RestartCallback 10000
               (console_error restart_message error w)) in *.
  apply andb_true_iff in Hwf' as [Hl' Ho'].
  destruct (advance_spec 10000 w' Ho') as (Hcalls & _ & Ho2 & Hl2 & Hlen).
  rewrite Hk, Ht, Hq in Hlen, Hcalls.
  change (enqueue ?t []) with [t] in Hlen, Hcalls.
  rewrite due_by_cons, due_by_nil in Hlen, Hcalls.
  change (due {| due := ?d; callback := _ |}) with d in Hlen, Hcalls.
  rewrite Z.leb_refl in Hlen, Hcalls.
  apply length_zero_iff_nil in Hlen.
  repeat split.
  - unfold well_formed. now rewrite (Hl2 Hl'), Ho2.
  - exact Hlen.
  - rewrite Hcalls, Hc. lia.
Qed.

Lemma error_cycles_spec (errors : list string) :
  ∀ w, well_formed w = true → timers w = [] →
    well_formed (error_cycles errors w) = true
    ∧ timers (error_cycles errors w) = []
    ∧ listenEvents_calls (error_cycles errors w)
      = (length errors + listenEvents_calls w)%nat.
Proof.
  induction errors as [|error errors IH]; intros w Hwf Hq; simpl.
  - auto.
  - destruct (error_cycle_spec error w Hwf Hq) as (Hwf2 & Hq2 & Hc2).
    destruct (IH _ Hwf2 Hq2) as (Hwf3 & Hq3 & Hc3).
    rewrite Hc3, Hc2. repeat split; auto with lia.
Qed.

(** C4: an error event of the active subscription is logged and then a
    restart is scheduled ([console.error] precedes [setTimeout] in the
    effects); this makes no [listenEvents] call by itself, adds none to
    what the pending timers do during any span shorter than ten seconds,
    and adds exactly one over any span of ten seconds or more.  With no
    other restart pending this is: no call before ten seconds, exactly one
    from ten seconds on.  The loop is [Listening] again afterwards, and any
    number of faults, each followed by its ten seconds, yields as many new
    subscriptions: there is no state in which the loop stops. *)
Theorem listenLoop_restarts_after_delay (error : string) (w : State) :
  well_formed w = true →
  let w' := (subscription_error error w).1 in
  (subscription_error error w).2 = Normal
  ∧ effects w'
    = (effects w ++ [ConsoleError restart_message error;
                     SetTimeout RestartCallback 10000])%list
  ∧ listenEvents_calls w' = listenEvents_calls w
  ∧ (∀ dt, (dt < 10000)%Z →
       listenEvents_calls (advance dt w') = listenEvents_calls (advance dt w))
  ∧ (∀ dt, (10000 ≤ dt)%Z →
       listenEvents_calls (advance dt w') = S (listenEvents_calls (advance dt w)))
  ∧ (timers w = [] →
       (∀ dt, (dt < 10000)%Z →
          listenEvents_calls (advance dt w') = listenEvents_calls w)
       ∧ (∀ dt, (10000 ≤ dt)%Z →
          listenEvents_calls (advance dt w') = S (listenEvents_calls w)))
  ∧ (∀ dt, well_formed (advance dt w') = true)
  ∧ (timers w = [] → ∀ errors,
       well_formed (error_cycles errors w) = true
       ∧ listenEvents_calls (error_cycles errors w)
         = (length errors + listenEvents_calls w)%nat).
Proof.
  intros Hwf w'.
  assert (Hl : listening w = true).
  { unfold well_formed in Hwf. now apply andb_true_iff in Hwf as [? _]. }
  assert (Ho : ordered (timers w) = true).
  { unfold well_formed in Hwf. now apply andb_true_iff in Hwf as [_ ?]. }
  subst w'. rewrite (subscription_error_listening error w Hl). cbn [fst snd].
  destruct (handler_spec error w Hwf) as (Hwf' & _ & _ & Hc & _ & _ & He & Hadv).
  set (w' := setTimeout RestartCallback 10000
               (console_error restart_message error w)) in *.
  assert (Hidle : timers w = [] → ∀ dt,
            listenEvents_calls (advance dt w) = listenEvents_calls w).
  { intros Hq dt. destruct (advance_spec dt w Ho) as (-> & _).
    rewrite Hq, due_by_nil. lia. }
  split; [reflexivity|]. split; [exact He|]. split; [exact Hc|].
  split; [|split; [|split; [|split]]].
  - intros dt Hdt. rewrite Hadv.
    replace (10000 <=? dt)%Z with false by lia. reflexivity.
  - intros dt Hdt. rewrite Hadv.
    replace (10000 <=? dt)%Z with true by lia. reflexivity.
  - intros Hq. split; intros dt Hdt; rewrite Hadv, (Hidle Hq).
    + replace (10000 <=? dt)%Z with false by lia. reflexivity.
    + replace (10000 <=? dt)%Z with true by lia. reflexivity.
  - intros dt. apply andb_true_iff in Hwf' as [Hl' Ho'].
    destruct (advance_spec dt w' Ho') as (_ & _ & Ho2 & Hl2 & _).
    unfold well_formed. now rewrite (Hl2 Hl'), Ho2.
  - intros Hq errors.
    destruct (error_cycles_spec errors w Hwf Hq) as (? & _ & ?). auto.
Qed.

Context `{Platform}.

Lemma putSetting_listening (key : string) (value : SettingValue) (w : State) :
  listening w = true →
  putSetting key value w
  = (setTimeout RestartCallback 10000
       (console_error restart_message "new settings"
          (log_effect (StorageSet key (toString value))
             (set_storage (RtspCamera.putSetting key value (storage w)) w))),
     Normal).
Proof.
  intros Hl. unfold putSetting. cbv zeta.
  set (w1 := log_effect _ _).
  assert (Hl1 : listening w1 = true) by exact Hl.
  destruct (listener w1) as [e|] eqn:He.
  - now apply listening_emit.
  - unfold listening in Hl1. now rewrite He in Hl1.
Qed.

Lemma well_formed_putSetting (key : string) (value : SettingValue) (w : State) :
  well_formed w = true → well_formed (putSetting key value w).1 = true.
Proof.
  intros Hwf.
  assert (Hl : listening w = true).
  { unfold well_formed in Hwf. now apply andb_true_iff in Hwf as [? _]. }
  rewrite (putSetting_listening key value w Hl). cbn [fst].
  now apply (handler_spec "new settings" (log_effect _ (set_storage _ w)) Hwf).
Qed.

(** C3, as the code has it: [putSetting] first writes the stringified
    value under the key, then signals "new settings" to the active
    subscription, whose handler logs and schedules the restart.  No
    [listenEvents] call is made in the turn of the call or in a turn that
    follows without time passing; the call adds none during any span
    shorter than ten seconds and exactly one over any span of ten seconds
    or more. *)
Theorem putSetting_restarts_after_delay (key : string) (value : SettingValue)
    (w : State) :
  well_formed w = true →
  let w' := (putSetting key value w).1 in
  (putSetting key value w).2 = Normal
  ∧ storage w' = <[key := toString value]> (storage w)
  ∧ effects w'
    = (effects w ++ [StorageSet key (toString value);
                     ConsoleError restart_message "new settings";
                     SetTimeout RestartCallback 10000])%list
  ∧ listenEvents_calls w' = listenEvents_calls w
  ∧ listenEvents_calls (turn w') = listenEvents_calls (turn w)
  ∧ (∀ dt, (dt < 10000)%Z →
       listenEvents_calls (advance dt w') = listenEvents_calls (advance dt w))
  ∧ (∀ dt, (10000 ≤ dt)%Z →
       listenEvents_calls (advance dt w') = S (listenEvents_calls (advance dt w)))
  ∧ (timers w = [] →
       (∀ dt, (dt < 10000)%Z →
          listenEvents_calls (advance dt w') = listenEvents_calls w)
       ∧ (∀ dt, (10000 ≤ dt)%Z →
          listenEvents_calls (advance dt w') = S (listenEvents_calls w))).
Proof.
  intros Hwf w'.
  assert (Hl : listening w = true).
  { unfold well_formed in Hwf. now apply andb_true_iff in Hwf as [? _]. }
  assert (Ho : ordered (timers w) = true).
  { unfold well_formed in Hwf. now apply andb_true_iff in Hwf as [_ ?]. }
  subst w'. rewrite (putSetting_listening key value w Hl). cbn [fst snd].
  set (w1 := log_effect (StorageSet key (toString value))
               (set_storage (RtspCamera.putSetting key value (storage w)) w)).
  assert (Hwf1 : well_formed w1 = true) by exact Hwf.
  destruct (handler_spec "new settings" w1 Hwf1)
    as (_ & _ & Hs & Hc & _ & _ & He & Hadv).
  set (w' := setTimeout RestartCallback 10000
               (console_error restart_message "new settings" w1)) in *.
  assert (Hsame : ∀ dt, listenEvents_calls (advance dt w1)
                        = listenEvents_calls (advance dt w)).
  { intros dt. destruct (advance_spec dt w Ho) as (-> & _).
    destruct (advance_spec dt w1 Ho) as (-> & _). reflexivity. }
  assert (Hidle : timers w = [] → ∀ dt,
            listenEvents_calls (advance dt w) = listenEvents_calls w).
  { intros Hq dt. destruct (advance_spec dt w Ho) as (-> & _).
    rewrite Hq, due_by_nil. lia. }
  split; [reflexivity|]. split; [exact Hs|].
  split; [rewrite He; subst w1; simpl; now rewrite <- app_assoc|].
  split; [exact Hc|].
  split; [|split; [|split]].
  - unfold turn. rewrite Hadv, Hsame. reflexivity.
  - intros dt Hdt. rewrite Hadv, Hsame.
    replace (10000 <=? dt)%Z with false by lia. reflexivity.
  - intros dt Hdt. rewrite Hadv, Hsame.
    replace (10000 <=? dt)%Z with true by lia. reflexivity.
  - intros Hq. split; intros dt Hdt; rewrite Hadv, Hsame, (Hidle Hq).
    + replace (10000 <=? dt)%Z with false by lia. reflexivity.
    + replace (10000 <=? dt)%Z with true by lia. reflexivity.
Qed.

End listen_loop_restart.

(** ** RtspProvider *)

Section provider_properties.
Import RtspProvider.
Context `{Platform}.

Lemma discovered_ids_putSetting `{ProviderMethods} (key : string)
    (value : SettingValue) (p : State) :
  discovered_ids (putSetting key value p)
  = (discovered_ids p ++ [number_toString (Math_random (random_calls p))])%list.
Proof. unfold discovered_ids. simpl. now rewrite omap_app. Qed.

Lemma ids_from_draws_putSetting `{ProviderMethods} (key : string)
    (value : SettingValue) (p : State) :
  ids_from_draws p → ids_from_draws (putSetting key value p).
Proof.
  unfold ids_from_draws. intros Hp. rewrite discovered_ids_putSetting, Hp.
  change (random_calls (putSetting key value p)) with (S (random_calls p)).
  now rewrite seq_S, fmap_app.
Qed.

Lemma fresh_when_draw_differs (p : State) :
  ids_from_draws p →
  (∀ i, (i < random_calls p)%nat →
     number_toString (Math_random i)
     ≠ number_toString (Math_random (random_calls p))) →
  number_toString (Math_random (random_calls p)) ∉ discovered_ids p.
Proof.
  unfold ids_from_draws. intros -> Hne (i & Hi & Hin)%list_elem_of_fmap.
  apply elem_of_seq in Hin. apply (Hne i); [lia | now symmetry].
Qed.

(** C7, as the code has it: whatever the key, [putSetting] announces
    exactly one device, named by the stringified value, with the interfaces
    VideoCamera, Settings and the additional ones of the subclass, of type
    Camera, under the spelling of the next [Math.random()] draw; then it
    raises the setup alert and clears it at once.  Nothing compares the
    identifier with earlier ones: it is new exactly as far as the draw is
    spelled differently from the earlier draws. *)
Theorem putSetting_announces_device `{ProviderMethods} (key : string)
    (value : SettingValue) (p : State) :
  let id := number_toString (Math_random (random_calls p)) in
  let text := alert_text (toString value) in
  notifications (putSetting key value p)
  = (notifications p ++
       [ OnDeviceDiscovered
           {| nativeId := id; name := toString value;
              interfaces := VideoCamera :: Settings :: getAdditionalInterfaces;
              type := Camera |};
         Alert text;
         ClearAlert text ])%list
  ∧ (∀ key', putSetting key' value p = putSetting key value p)
  ∧ discovered_ids (putSetting key value p) = (discovered_ids p ++ [id])%list
  ∧ devices (putSetting key value p) = devices p
  ∧ heap (putSetting key value p) = heap p
  ∧ (ids_from_draws p → ids_from_draws (putSetting key value p))
  ∧ (ids_from_draws p →
     (∀ i, (i < random_calls p)%nat → number_toString (Math_random i) ≠ id) →
     id ∉ discovered_ids p).
Proof.
  intros id text. repeat split.
  - apply discovered_ids_putSetting.
  - apply ids_from_draws_putSetting.
  - apply fresh_when_draw_differs.
Qed.

(** *** The registry *)

Lemma getDevice_cached `{ProviderMethods} (nativeId : string) (p : State) (r : nat) :
  devices p !! nativeId = Some r → getDevice nativeId p = (Some r, p).
Proof. unfold getDevice. now intros ->. Qed.

Lemma getDevice_keeps `{ProviderMethods} (nativeId other : string) (p : State)
    (r : nat) :
  devices p !! nativeId = Some r →
  devices (getDevice other p).2 !! nativeId = Some r.
Proof.
  intros Hr. unfold getDevice.
  destruct (devices p !! other) as [r'|] eqn:Ho; [exact Hr|].
  destruct (createCamera other (heap p)) as [[r'|] heap']; simpl; [|exact Hr].
  rewrite lookup_insert_ne; [exact Hr | congruence].
Qed.

Lemma run_keeps `{ProviderMethods} (calls : list Call) :
  ∀ (p : State) (nativeId : string) (r : nat),
    devices p !! nativeId = Some r →
    devices (run calls p) !! nativeId = Some r.
Proof.
  induction calls as [|c calls IH]; intros p nativeId r Hr; [exact Hr|].
  apply IH. destruct c as [other | key value]; simpl.
  - now apply getDevice_keeps.
  - exact Hr.
Qed.

Lemma getDevice_base_created (nativeId : string) (p : State) :
  devices p !! nativeId = None →
  getDevice (H := base) nativeId p
  = (Some (length (heap p)),
     {| devices := <[nativeId := length (heap p)]> (devices p);
        heap := (heap p ++ [ {| adapter_nativeId := nativeId |} ])%list;
        random_calls := random_calls p;
        notifications := notifications p |}).
Proof. unfold getDevice. now intros ->. Qed.

Lemma getDevice_base_registers (nativeId : string) (p : State) :
  ∃ r, (getDevice (H := base) nativeId p).1 = Some r
       ∧ devices (getDevice (H := base) nativeId p).2 !! nativeId = Some r.
Proof.
  destruct (devices p !! nativeId) as [r|] eqn:Hr.
  - exists r. now rewrite (getDevice_cached nativeId p r Hr).
  - exists (length (heap p)). rewrite (getDevice_base_created nativeId p Hr).
    simpl. now rewrite lookup_insert_eq.
Qed.

(** C8: [getDevice] of the base provider always answers an adapter; asked
    again for the same identifier it answers the same reference without
    creating anything (the provider is left as it was), because the first
    answer is the registry's entry for the identifier; when the identifier
    was not registered, that answer is a newly allocated adapter; and after
    any further calls on the provider the answer is still that
    reference. *)
Theorem getDevice_same_instance (nativeId : string) (p : State) :
  let r1 := (getDevice (H := base) nativeId p).1 in
  let p1 := (getDevice (H := base) nativeId p).2 in
  is_Some r1
  ∧ (getDevice (H := base) nativeId p1).1 = r1
  ∧ (getDevice (H := base) nativeId p1).2 = p1
  ∧ devices p1 !! nativeId = r1
  ∧ (devices p !! nativeId = None →
     r1 = Some (length (heap p))
     ∧ heap p !! length (heap p) = None
     ∧ heap p1 !! length (heap p) = Some {| adapter_nativeId := nativeId |})
  ∧ (∀ calls,
       (getDevice (H := base) nativeId (run (H0 := base) calls p1)).1 = r1).
Proof.
  intros r1 p1.
  destruct (getDevice_base_registers nativeId p) as (r & Hr1 & Hp1).
  fold r1 in Hr1. fold p1 in Hp1. rewrite Hr1.
  split; [now exists r|].
  rewrite (getDevice_cached nativeId p1 r Hp1). simpl.
  split; [reflexivity|]. split; [reflexivity|]. split; [exact Hp1|]. split.
  - intros Hnone. subst r1 p1.
    rewrite (getDevice_base_created nativeId p Hnone) in *. simpl in *.
    split; [congruence|]. split.
    + apply lookup_ge_None. lia.
    + rewrite lookup_app_r by lia. now rewrite Nat.sub_diag.
  - intros calls.
    now rewrite (getDevice_cached nativeId _ r (run_keeps calls p1 nativeId r Hp1)).
Qed.

End provider_properties.

(** * Worked instances *)

Section instances.
Import RtspSmartCamera.

Lemma getRtspUrlOverride_analogue_witness :
  Sample.analogue !! "isAnalogueCamera" = Some "true"
  ∧ Sample.analogue !! "rtspChannel" = Some "2"
  ∧ "2" ≠ ""
  ∧ getRtspUrlOverride Sample.analogue = Some "rtsp://host/201/?x=1".
Proof.
  split; [reflexivity|]. split; [reflexivity|]. split; [discriminate|].
  apply (getRtspUrlOverride_analogue Sample.analogue "2");
    [reflexivity | reflexivity | discriminate | reflexivity .. ].
Defined.

Lemma getRtspUrlOverride_raw_witness :
  Sample.digital !! "isAnalogueCamera" ≠ Some "true"
  ∧ getRtspUrlOverride Sample.digital = Sample.digital !! "rtspUrlOverride".
Proof.
  split; [discriminate|].
  apply (getRtspUrlOverride_raw Sample.digital). left. discriminate.
Defined.

Lemma absent_override_spelled_null_witness :
  Sample.analogue_without_url !! "isAnalogueCamera" = Some "true"
  ∧ Sample.analogue_without_url !! "rtspChannel" = Some "2"
  ∧ "2" ≠ ""
  ∧ Sample.analogue_without_url !! "rtspUrlOverride" = None
  ∧ getStreamUrl (H := Sample.family) Sample.analogue_without_url
    = getAnalogueCameraUrl Sample.analogue_without_url
  ∧ getAnalogueCameraUrl Sample.analogue_without_url
    = "null/201/?transportmode=unicast".
Proof.
  split; [reflexivity|]. split; [reflexivity|]. split; [discriminate|].
  split; [reflexivity|]. split; [|reflexivity].
  apply (absent_override_spelled_null (H := Sample.family)
           Sample.analogue_without_url "2");
    [reflexivity | reflexivity | discriminate | reflexivity].
Defined.

Lemma listenLoop_restarts_after_delay_witness :
  well_formed Sample.camera = true
  ∧ listenEvents_calls Sample.camera = 1%nat
  ∧ listenEvents_calls
      (advance 9999 (subscription_error "socket closed" Sample.camera).1) = 1%nat
  ∧ listenEvents_calls
      (advance 10000 (subscription_error "socket closed" Sample.camera).1) = 2%nat.
Proof.
  split; [reflexivity|]. split; [reflexivity|].
  destruct (listenLoop_restarts_after_delay "socket closed" Sample.camera eq_refl)
    as (_ & _ & _ & _ & _ & Hidle & _).
  destruct (Hidle eq_refl) as [Hbefore Hafter].
  split; [apply Hbefore | apply Hafter]; lia.
Defined.

Lemma putSetting_restarts_after_delay_witness :
  well_formed Sample.camera = true
  ∧ listenEvents_calls
      (advance 9999
         (putSetting (H := Sample.repeating) "ip" (VString "192.168.1.101")
            Sample.camera).1) = 1%nat
  ∧ listenEvents_calls
      (advance 10000
         (putSetting (H := Sample.repeating) "ip" (VString "192.168.1.101")
            Sample.camera).1) = 2%nat.
Proof.
  split; [reflexivity|].
  destruct (putSetting_restarts_after_delay (H := Sample.repeating)
              "ip" (VString "192.168.1.101") Sample.camera eq_refl)
    as (_ & _ & _ & _ & _ & _ & _ & Hidle).
  destruct (Hidle eq_refl) as [Hbefore Hafter].
  split; [apply Hbefore | apply Hafter]; lia.
Defined.

(** On a camera that has just been constructed, [putSetting] leaves the
    number of [listenEvents] calls at one, in its own turn and in the
    next. *)
Lemma putSetting_does_not_reacquire_within_a_turn :
  ¬ reacquires_within_a_turn (H := Sample.repeating)
      "ip" (VString "192.168.1.101") Sample.camera.
Proof.
  intros [_ [Hcalls | Hcalls]]; vm_compute in Hcalls; discriminate.
Qed.

End instances.

Section provider_instances.
Import RtspProvider.

Lemma putSetting_announces_device_witness :
  ids_from_draws (H := Sample.varying) Sample.provider_varying
  ∧ "0.25" ∉ discovered_ids Sample.provider_varying.
Proof.
  split; [reflexivity|].
  destruct (putSetting_announces_device (H := Sample.varying) (H0 := base)
              "anything" (VString "Back Yard") Sample.provider_varying)
    as (_ & _ & _ & _ & _ & _ & Hfresh).
  apply Hfresh; [reflexivity|].
  intros [|i] Hi; [discriminate | simpl in Hi; lia].
Defined.

(** With a generator that repeats a draw, the second camera is announced
    under the identifier of the first. *)
Lemma putSetting_repeats_identifier :
  ¬ announces_fresh_device (H := Sample.repeating) (H0 := base)
      "anything" (VString "Back Yard") Sample.provider.
Proof.
  intros (id & Hn & Hfresh).
  apply app_inv_head in Hn. injection Hn as <-.
  apply Hfresh. vm_compute. left.
Qed.

End provider_instances.

(** * Further properties *)

(** ** RtspCamera: settings written and read back *)

Section camera_settings.
Import RtspCamera.
Context `{Platform}.

Lemma isAudioDisabled_put_noAudio (value : SettingValue) (storage : Storage) :
  isAudioDisabled (putSetting "noAudio" value storage)
  = bool_decide (toString value = "true").
Proof.
  unfold isAudioDisabled, putSetting, Js.getItem, Js.setItem.
  now rewrite lookup_insert_eq.
Qed.

Lemma isAudioDisabled_put_other (key : string) (value : SettingValue)
    (storage : Storage) :
  key ≠ "noAudio" →
  isAudioDisabled (putSetting key value storage) = isAudioDisabled storage.
Proof.
  intros Hne. unfold isAudioDisabled, putSetting, Js.getItem, Js.setItem.
  now rewrite lookup_insert_ne.
Qed.

Lemma putSetting_stored (key v : string) (storage : Storage) :
  storage !! key = Some v → putSetting key (VString v) storage = storage.
Proof. intros Hv. unfold putSetting, Js.setItem. now apply insert_id. Qed.

Lemma getSettings_ext (storage storage' : Storage) :
  storage !! "url" = storage' !! "url" →
  storage !! "username" = storage' !! "username" →
  storage !! "password" = storage' !! "password" →
  isAudioDisabled storage = isAudioDisabled storage' →
  getSettings storage = getSettings storage'.
Proof.
  unfold getSettings, getSettings_with, getUrlSettings, getUsername, getPassword,
    Js.getItem.
  now intros -> -> -> ->.
Qed.

(** X1: a value written with [putSetting] is what [getItem] answers for
    that key, as its string; every other key keeps its value; a second
    write to the key replaces the first.  In particular [getStreamUrl],
    [getUsername] and [getPassword] answer what was last written under
    "url", "username" and "password". *)
Theorem putSetting_read_back (key : string) (value : SettingValue)
    (storage : Storage) :
  Js.getItem key (putSetting key value storage) = Some (toString value)
  ∧ (∀ other, other ≠ key →
       Js.getItem other (putSetting key value storage) = Js.getItem other storage)
  ∧ (∀ value', putSetting key value' (putSetting key value storage)
               = putSetting key value' storage)
  ∧ getStreamUrl (putSetting "url" value storage) = Some (toString value)
  ∧ getUsername (putSetting "username" value storage) = Some (toString value)
  ∧ getPassword (putSetting "password" value storage) = Some (toString value).
Proof.
  unfold getStreamUrl, getUsername, getPassword, putSetting, Js.getItem, Js.setItem.
  repeat split; try apply lookup_insert_eq.
  - intros other Hne. now apply lookup_insert_ne.
  - intros value'. apply insert_insert_eq.
Qed.

(** X2: after [putSetting("noAudio", v)] the capability descriptor lacks
    audio exactly when [v] prints as "true" (so "True", "1" or "yes" leave
    audio on), the settings form then shows "true" or "false", whatever
    string was stored, and a write to any other key leaves the descriptor as
    it was. *)
Theorem putSetting_noAudio (value : SettingValue) (storage : Storage) :
  getVideoStreamOptions (putSetting "noAudio" value storage)
  = [ {| video := Some Build_Constraints;
         audio := if bool_decide (toString value = "true")
                  then None else Some Build_Constraints |} ]
  ∧ Setting.value <$> Setting.lookup "noAudio"
                        (getSettings (putSetting "noAudio" value storage))
    = Some (Some (Some (Js.bool_toString (bool_decide (toString value = "true")))))
  ∧ (∀ key, key ≠ "noAudio" →
       getVideoStreamOptions (putSetting key value storage)
       = getVideoStreamOptions storage).
Proof.
  split; [|split].
  - unfold getVideoStreamOptions. now rewrite isAudioDisabled_put_noAudio.
  - unfold getSettings, getSettings_with, getUrlSettings. cbn.
    now rewrite isAudioDisabled_put_noAudio.
  - intros key Hne. unfold getVideoStreamOptions.
    now rewrite isAudioDisabled_put_other.
Qed.

(** X3: saving back a value the settings form shows changes nothing the
    camera derives from its configuration: the form, the capability
    descriptor and the stream URL are as before.  For "url", "username" and
    "password" the configuration itself is unchanged. *)
Theorem getSettings_resave (storage : Storage) (s : Setting.t) (v : string) :
  s ∈ getSettings storage →
  Setting.value s = Some (Some v) →
  getSettings (putSetting (Setting.key s) (VString v) storage) = getSettings storage
  ∧ getVideoStreamOptions (putSetting (Setting.key s) (VString v) storage)
    = getVideoStreamOptions storage
  ∧ getStreamUrl (putSetting (Setting.key s) (VString v) storage)
    = getStreamUrl storage
  ∧ (Setting.key s ≠ "noAudio" →
     putSetting (Setting.key s) (VString v) storage = storage).
Proof.
  unfold getSettings at 1, getSettings_with, getUrlSettings.
  intros Hin Hv. simpl in Hin.
  repeat (apply elem_of_cons in Hin as [-> | Hin]).
  5: now apply elem_of_nil in Hin.
  1-3: simpl in Hv; injection Hv as Hv; cbn [Setting.key];
       rewrite (putSetting_stored _ v storage Hv); repeat split; reflexivity.
  simpl in Hv. injection Hv as <-. cbn [Setting.key].
  assert (Ha : isAudioDisabled
                 (putSetting "noAudio"
                    (VString (Js.bool_toString (isAudioDisabled storage))) storage)
               = isAudioDisabled storage).
  { rewrite isAudioDisabled_put_noAudio. simpl.
    now destruct (isAudioDisabled storage). }
  repeat split.
  - apply getSettings_ext; [| | |exact Ha];
      unfold putSetting, Js.setItem; now rewrite lookup_insert_ne by discriminate.
  - unfold getVideoStreamOptions. now rewrite Ha.
  - unfold getStreamUrl, putSetting, Js.getItem, Js.setItem.
    now rewrite lookup_insert_ne by discriminate.
  - intros Hne. now contradict Hne.
Qed.

End camera_settings.

(** ** RtspCamera: the stream descriptor *)

Section video_stream.
Import RtspCamera.
Context `{UrlApi} `{CameraFamily}.

(** X4: [getVideoStream] fails exactly when the URL constructor rejects the
    stream URL (for an absent URL: the string "null").  Otherwise the
    descriptor has the ten tuning arguments, "-i" and, last, the URL with
    the stored user name and password set ("null" for an absent one); its
    stream options are the one capability descriptor, without audio exactly
    when [noAudio] is "true".  A smart camera hands the constructor its own
    stream URL, the override or the constructed one, and never "null". *)
Theorem getVideoStream_descriptor (streamUrl : option string) (storage : Storage) :
  (getVideoStream_with streamUrl storage = None
   ↔ URL_parse (Js.template streamUrl) = None)
  ∧ (∀ input, getVideoStream_with streamUrl storage = Some input →
       ∃ url, URL_parse (Js.template streamUrl) = Some url
         ∧ inputArguments input
           = [ "-rtsp_transport"; "tcp"; "-analyzeduration"; "15000000";
               "-probesize"; "10000000"; "-reorder_queue_size"; "1024";
               "-max_delay"; "20000000"; "-i";
               URL_toString
                 (URL_set_password (Js.template (storage !! "password"))
                    (URL_set_username (Js.template (storage !! "username")) url)) ]
         ∧ mediaStreamOptions input
           = Some {| video := Some Build_Constraints;
                     audio := if isAudioDisabled storage
                              then None else Some Build_Constraints |})
  ∧ getVideoStream storage = getVideoStream_with (storage !! "url") storage
  ∧ (storage !! "url" = None →
     URL_parse "null" = None → getVideoStream storage = None)
  ∧ (RtspSmartCamera.getVideoStream storage = None
     ↔ URL_parse (RtspSmartCamera.getStreamUrl storage) = None).
Proof.
  unfold RtspSmartCamera.getVideoStream.
  unfold getVideoStream, getVideoStream_with, getStreamUrl, Js.getItem.
  split; [|split; [|split; [|split]]].
  - destruct (URL_parse (Js.template streamUrl)); split; congruence.
  - intros input. destruct (URL_parse (Js.template streamUrl)) as [url|]; [|discriminate].
    intros [= <-]. exists url. repeat split.
  - reflexivity.
  - intros -> Hnull. simpl. now rewrite Hnull.
  - simpl. destruct (URL_parse (RtspSmartCamera.getStreamUrl storage));
      split; congruence.
Qed.

End video_stream.

(** ** RtspSmartCamera: addresses and settings form *)

Section smart_settings.
Import RtspSmartCamera.
Context `{CameraFamily} `{Platform}.

(** X5: the port of [getHttpAddress] is the stored [httpPort] when that is a
    non-empty string (so "0" is used as it is) and 80 when it is absent or
    empty; [getRtspAddress] does the same with [rtspPort] and 554.  An
    absent [ip] is spelled "null" in both. *)
Theorem address_ports (storage : Storage) :
  (storage !! "httpPort" = None ∨ storage !! "httpPort" = Some "" →
     getHttpAddress storage = Js.template (storage !! "ip") +:+ ":80")
  ∧ (∀ port, storage !! "httpPort" = Some port → port ≠ "" →
     getHttpAddress storage = Js.template (storage !! "ip") +:+ ":" +:+ port)
  ∧ (storage !! "rtspPort" = None ∨ storage !! "rtspPort" = Some "" →
     getRtspAddress storage = Js.template (storage !! "ip") +:+ ":554")
  ∧ (∀ port, storage !! "rtspPort" = Some port → port ≠ "" →
     getRtspAddress storage = Js.template (storage !! "ip") +:+ ":" +:+ port)
  ∧ (storage !! "ip" = None →
     String.prefix "null:" (getHttpAddress storage) = true
     ∧ String.prefix "null:" (getRtspAddress storage) = true).
Proof.
  unfold getHttpAddress, getRtspAddress, Js.getItem.
  split; [|split; [|split; [|split]]].
  - intros Hp. now rewrite (or_else_falsy _ "80" Hp).
  - intros port -> Hne. now rewrite (or_else_truthy port "80" Hne).
  - intros Hp. now rewrite (or_else_falsy _ "554" Hp).
  - intros port -> Hne. now rewrite (or_else_truthy port "554" Hne).
  - intros ->. cbv [Js.template]. literal_append. simpl.
    split; now destruct (Js.or_else _ _).
Qed.

Lemma smart_keys (storage : Storage) :
  Setting.keys (getSettings storage)
  = [ "ip"; "httpPort"; "isAnalogueCamera"; "rtspUrlOverride"; "rtspChannel";
      "rtspUrlParams"; "username"; "password"; "noAudio" ].
Proof. reflexivity. Qed.

Lemma offered_key_not_rtspPort (storage : Storage) (key : string) :
  key ∈ Setting.keys (getSettings storage) → key ≠ "rtspPort".
Proof.
  rewrite smart_keys. intros Hin ->.
  repeat (apply elem_of_cons in Hin as [Heq | Hin]; [discriminate Heq|]).
  now apply elem_of_nil in Hin.
Qed.

(** X6: the settings form of a smart camera has the same keys for every
    configuration and none of them is "rtspPort" (nor "url"): as long as
    only offered keys are written to a configuration without [rtspPort], the
    port of [getRtspAddress] stays 554. *)
Theorem rtspPort_never_offered (entries : list (string * SettingValue))
    (storage : Storage) :
  storage !! "rtspPort" = None →
  (∀ entry, entry ∈ entries → entry.1 ∈ Setting.keys (getSettings storage)) →
  let storage' :=
    foldl (λ st entry, RtspCamera.putSetting entry.1 entry.2 st) storage entries in
  getRtspAddress storage' = Js.template (storage' !! "ip") +:+ ":554"
  ∧ Setting.keys (getSettings storage') = Setting.keys (getSettings storage)
  ∧ ("rtspPort" ∉ Setting.keys (getSettings storage'))
  ∧ ("url" ∉ Setting.keys (getSettings storage')).
Proof.
  intros Hnone Hkeys storage'.
  assert (Hport : storage' !! "rtspPort" = None).
  { subst storage'. revert storage Hnone Hkeys.
    induction entries as [|entry entries IH]; intros storage Hnone Hkeys; [exact Hnone|].
    simpl. apply IH.
    - unfold RtspCamera.putSetting, Js.setItem. rewrite lookup_insert_ne; [exact Hnone|].
      apply (offered_key_not_rtspPort storage). apply Hkeys. left.
    - intros e He. rewrite smart_keys, <- (smart_keys storage).
      apply Hkeys. now right. }
  split; [|split; [reflexivity|split]].
  - unfold getRtspAddress, Js.getItem. now rewrite Hport.
  - intros Hin. now apply (offered_key_not_rtspPort storage') in Hin.
  - rewrite smart_keys. intros Hin.
    repeat (apply elem_of_cons in Hin as [Heq | Hin]; [discriminate Heq|]).
    now apply elem_of_nil in Hin.
Qed.

End smart_settings.

(** ** RtspSmartCamera: the listen loop over whole runs *)

Section listen_loop_runs.
Import RtspSmartCamera.
Context `{CameraFamily} `{Platform}.

(** *** What the handlers and the timers leave alone *)

Lemma run_handlers_frame (error : string) (l : list Handler) :
  ∀ w, storage (foldl (run_handler error) w l) = storage w
       ∧ listener (foldl (run_handler error) w l) = listener w
       ∧ handlers (foldl (run_handler error) w l) = handlers w
       ∧ listenEvents_calls (foldl (run_handler error) w l) = listenEvents_calls w
       ∧ clock (foldl (run_handler error) w l) = clock w.
Proof.
  induction l as [|[] l IH]; intros w; cbn [foldl]; [auto|].
  destruct (IH (run_handler error w ErrorHandler)) as (-> & -> & -> & -> & ->).
  repeat split.
Qed.

Lemma emit_error_frame (e : nat) (error : string) (w : State) :
  storage (emit_error e error w).1 = storage w
  ∧ listener (emit_error e error w).1 = listener w
  ∧ handlers (emit_error e error w).1 = handlers w
  ∧ listenEvents_calls (emit_error e error w).1 = listenEvents_calls w
  ∧ clock (emit_error e error w).1 = clock w.
Proof.
  unfold emit_error. destruct (handlers w !! e) as [[|h hs]|]; cbn [fst]; auto.
  apply run_handlers_frame.
Qed.

Lemma putSetting_storage (key : string) (value : SettingValue) (w : State) :
  storage (putSetting key value w).1 = <[key := toString value]> (storage w).
Proof.
  unfold putSetting. cbv zeta.
  set (w1 := log_effect _ _).
  destruct (listener w1) as [e|]; [|reflexivity].
  now destruct (emit_error_frame e "new settings" w1) as (-> & _).
Qed.

Lemma putSetting_frame (key : string) (value : SettingValue) (w : State) :
  listener (putSetting key value w).1 = listener w
  ∧ listenEvents_calls (putSetting key value w).1 = listenEvents_calls w.
Proof.
  unfold putSetting. cbv zeta.
  set (w1 := log_effect _ _).
  change (listener w) with (listener w1).
  change (listenEvents_calls w) with (listenEvents_calls w1).
  destruct (listener w1) as [e|] eqn:He; cbn [fst]; [|auto].
  destruct (emit_error_frame e "new settings" w1) as (_ & -> & _ & -> & _). auto.
Qed.

Lemma run_timers_storage (fuel : nat) (target : Z) :
  ∀ w, storage (run_timers fuel target w) = storage w.
Proof.
  induction fuel as [|fuel IH]; intros w; simpl; [reflexivity|].
  destruct (timers w) as [|[d []] rest]; [reflexivity|].
  cbn [due callback]. destruct (d <=? target)%Z; [|reflexivity].
  now rewrite IH.
Qed.

Lemma step_storage (w : State) (s : Step) :
  storage (step w s) = writes [s] (storage w).
Proof.
  destruct s as [key value | e error | dt]; simpl.
  - apply putSetting_storage.
  - now destruct (emit_error_frame e error w) as (-> & _).
  - apply run_timers_storage.
Qed.

(** X7: the configuration of a smart camera changes only through
    [putSetting]: after any run of [putSetting] calls, error events and
    waiting, it is the configuration at the start with the written values
    put in, in order; error events and restarts alone leave it, and with it
    the stream URL, as they were. *)
Theorem configuration_changes_only_by_putSetting (steps : list Step) (w : State) :
  storage (run_steps steps w) = writes steps (storage w)
  ∧ (∀ e error dt,
       getStreamUrl (storage (advance dt (emit_error e error w).1))
       = getStreamUrl (storage w)).
Proof.
  split.
  - revert w. induction steps as [|s steps IH]; intros w; [reflexivity|].
    simpl. rewrite IH, step_storage. reflexivity.
  - intros e error dt. unfold advance. cbn [storage set_clock].
    rewrite run_timers_storage.
    now destruct (emit_error_frame e error w) as (-> & _).
Qed.

(** X8: a written stream-URL override is in force at once, before the
    restart it triggers: outside analogue mode [getStreamUrl] answers the
    written string when that is non-empty and the constructed URL of the new
    configuration when it is empty, while [this.listener] and the number of
    [listenEvents] calls are as before the call. *)
Theorem putSetting_override_in_force (value : SettingValue) (w : State) :
  isAnalogueCamera (storage w) = false ∨ getRtspChannel (storage w) = "" →
  let w' := (putSetting "rtspUrlOverride" value w).1 in
  (toString value ≠ "" → getStreamUrl (storage w') = toString value)
  ∧ (toString value = "" →
     getStreamUrl (storage w') = getConstructedStreamUrl (storage w'))
  ∧ listener w' = listener w
  ∧ listenEvents_calls w' = listenEvents_calls w.
Proof.
  intros Hmode w'.
  assert (Hs : storage w' = <["rtspUrlOverride" := toString value]> (storage w))
    by apply putSetting_storage.
  assert (Hov : getRtspUrlOverride (storage w') = Some (toString value)).
  { rewrite Hs. rewrite raw_branch_taken.
    - unfold getRtspUrl, Js.getItem. apply lookup_insert_eq.
    - unfold isAnalogueCamera, getRtspChannel, Js.getItem in *.
      now rewrite !lookup_insert_ne by discriminate. }
  split; [|split; [|split]].
  - intros Hne. now apply getStreamUrl_truthy.
  - intros Hempty. apply getStreamUrl_falsy. left. now rewrite Hov, Hempty.
  - apply putSetting_frame.
  - apply putSetting_frame.
Qed.

(** *** Each call schedules its own restart *)

Lemma putSetting_step_spec (key : string) (value : SettingValue) (w : State) :
  well_formed w = true →
  well_formed (putSetting key value w).1 = true
  ∧ listener (putSetting key value w).1 = listener w
  ∧ listenEvents_calls (putSetting key value w).1 = listenEvents_calls w
  ∧ timers (putSetting key value w).1
    = enqueue {| due := (clock w + 10000)%Z; callback := RestartCallback |} (timers w)
  ∧ ∀ dt, listenEvents_calls (advance dt (putSetting key value w).1)
          = ((if (10000 <=? dt)%Z then 1 else 0)
             + listenEvents_calls (advance dt w))%nat.
Proof.
  intros Hwf.
  assert (Hl : listening w = true).
  { unfold well_formed in Hwf. now apply andb_true_iff in Hwf as [? _]. }
  assert (Ho : ordered (timers w) = true).
  { unfold well_formed in Hwf. now apply andb_true_iff in Hwf as [_ ?]. }
  rewrite (putSetting_listening key value w Hl). cbn [fst].
  set (w1 := log_effect (StorageSet key (toString value))
               (set_storage (RtspCamera.putSetting key value (storage w)) w)).
  assert (Hwf1 : well_formed w1 = true) by exact Hwf.
  destruct (handler_spec "new settings" w1 Hwf1)
    as (Hwf' & Hlis & _ & Hc & _ & Ht & _ & Hadv).
  repeat split; try assumption.
  intros dt. rewrite Hadv.
  destruct (advance_spec dt w Ho) as (-> & _).
  destruct (advance_spec dt w1 Ho) as (-> & _). reflexivity.
Qed.

(** X9: [putSetting] calls are not coalesced.  Any number of calls made one
    after the other leave [this.listener] and the number of [listenEvents]
    calls as they were, and ten seconds later each call has caused a
    [listenEvents] call of its own. *)
Theorem putSettings_restart_each (entries : list (string * SettingValue))
    (w : State) :
  well_formed w = true →
  listener (putSettings entries w) = listener w
  ∧ listenEvents_calls (putSettings entries w) = listenEvents_calls w
  ∧ (∀ dt, (dt < 10000)%Z →
       listenEvents_calls (advance dt (putSettings entries w))
       = listenEvents_calls (advance dt w))
  ∧ (∀ dt, (10000 ≤ dt)%Z →
       listenEvents_calls (advance dt (putSettings entries w))
       = (length entries + listenEvents_calls (advance dt w))%nat).
Proof.
  revert w. induction entries as [|[key value] entries IH]; intros w Hwf.
  - repeat split; reflexivity.
  - destruct (putSetting_step_spec key value w Hwf) as (Hwf1 & Hl1 & Hc1 & _ & Hadv).
    destruct (IH _ Hwf1) as (Hl & Hc & Hbefore & Hafter).
    change (putSettings ((key, value) :: entries) w)
      with (putSettings entries (putSetting key value w).1).
    rewrite Hl, Hc, Hl1, Hc1. repeat split.
    + intros dt Hdt. rewrite (Hbefore dt Hdt), Hadv.
      replace (10000 <=? dt)%Z with false by lia. reflexivity.
    + intros dt Hdt. rewrite (Hafter dt Hdt), Hadv.
      replace (10000 <=? dt)%Z with true by lia. cbn [length]. lia.
Qed.

Lemma length_enqueue (t : Timer) (q : list Timer) :
  length (enqueue t q) = S (length q).
Proof.
  induction q as [|u q IH]; simpl; [reflexivity|].
  destruct (due u <=? due t)%Z; simpl; now rewrite ?IH.
Qed.

(** X10: saving back a value the address form of a smart camera shows
    leaves the configuration exactly as it was, and still schedules a
    restart: one more timer is pending and ten seconds later one more
    [listenEvents] call has been made than without the call. *)
Theorem resave_still_restarts (w : State) (s : Setting.t) (v : string) :
  well_formed w = true →
  s ∈ getUrlSettings (storage w) →
  Setting.value s = Some (Some v) →
  let w' := (putSetting (Setting.key s) (VString v) w).1 in
  storage w' = storage w
  ∧ length (timers w') = S (length (timers w))
  ∧ listenEvents_calls (advance 10000 w')
    = S (listenEvents_calls (advance 10000 w)).
Proof.
  intros Hwf Hin Hv w'.
  destruct (putSetting_step_spec (Setting.key s) (VString v) w Hwf)
    as (_ & _ & _ & Ht & Hadv).
  fold w' in Ht, Hadv. rewrite Ht, length_enqueue, Hadv.
  split; [|split; reflexivity].
  subst w'. rewrite putSetting_storage. apply insert_id.
  unfold getUrlSettings in Hin.
  repeat (apply elem_of_cons in Hin as [-> | Hin]).
  7: now apply elem_of_nil in Hin.
  all: simpl in Hv; now injection Hv.
Qed.

End listen_loop_runs.

(** ** RtspSmartCamera: every state a camera reaches *)

Section listen_loop_invariant.
Import RtspSmartCamera.
Context `{Platform}.

Lemma Forall_enqueue (P : Timer → Prop) (t : Timer) (q : list Timer) :
  P t → Forall P q → Forall P (enqueue t q).
Proof.
  intros Ht. induction q as [|u q IH]; intros Hq; simpl.
  - now constructor.
  - apply Forall_cons in Hq as [Hu Hq].
    destruct (due u <=? due t)%Z; repeat constructor; auto.
Qed.

Lemma invariant_well_formed (w : State) : invariant w → well_formed w = true.
Proof.
  intros (Hpos & Hlis & Hold & _ & Hord & _).
  unfold well_formed, listening. rewrite Hlis, Hord, andb_true_r.
  apply bool_decide_eq_true, Hold. lia.
Qed.

Lemma invariant_construct (config : Storage) (now : Z) :
  invariant (construct config now).
Proof.
  unfold invariant, construct, listenLoop, on_error. simpl.
  split; [lia|]. split; [reflexivity|]. split; [|split; [|split]].
  - intros e He. replace e with 0%nat by lia. now rewrite !lookup_insert_eq.
  - intros e He. now rewrite !lookup_insert_ne, lookup_empty by lia.
  - reflexivity.
  - constructor.
Qed.

Lemma invariant_schedule (error : string) (w : State) :
  invariant w →
  invariant (setTimeout RestartCallback 10000
               (console_error restart_message error w)).
Proof.
  intros (Hpos & Hlis & Hold & Hnew & Hord & Hdue).
  unfold invariant. cbn [setTimeout console_error log_effect set_timers
    listenEvents_calls listener handlers timers clock].
  repeat split; try assumption.
  - now apply ordered_enqueue.
  - apply Forall_enqueue; [simpl; lia | exact Hdue].
Qed.

Lemma invariant_emit_error (e : nat) (error : string) (w : State) :
  invariant w → invariant (emit_error e error w).1.
Proof.
  intros Hinv. unfold emit_error.
  destruct (decide (e < listenEvents_calls w)%nat) as [Hlt | Hge].
  - destruct Hinv as (Hpos & Hlis & Hold & Hrest) eqn:Hsplit.
    rewrite (Hold e Hlt). cbn [fst foldl run_handler].
    now apply invariant_schedule.
  - destruct Hinv as (Hpos & Hlis & Hold & Hnew & Hrest) eqn:Hsplit.
    rewrite (Hnew e) by lia. exact Hinv.
Qed.

Lemma invariant_putSetting (key : string) (value : SettingValue) (w : State) :
  invariant w → invariant (putSetting key value w).1.
Proof.
  intros Hinv. unfold putSetting. cbv zeta.
  set (w1 := log_effect _ _).
  assert (Hinv1 : invariant w1) by exact Hinv.
  destruct (listener w1) as [e|]; [|exact Hinv1].
  now apply invariant_emit_error.
Qed.

Lemma invariant_fire (w : State) (t : Timer) (rest : list Timer) :
  invariant w → timers w = t :: rest →
  invariant (run_callback (callback t)
               (set_timers rest (set_clock (Z.max (clock w) (due t)) w))).
Proof.
  intros (Hpos & Hlis & Hold & Hnew & Hord & Hdue) Hq.
  rewrite Hq in Hord, Hdue. simpl in Hord.
  apply andb_true_iff in Hord as [_ Hord].
  apply Forall_cons in Hdue as [_ Hdue].
  destruct t as [d []]. unfold invariant, run_callback, listenLoop, on_error. simpl.
  split; [lia|]. split; [reflexivity|]. split; [|split; [|split]].
  - intros e He. destruct (decide (e = listenEvents_calls w)) as [-> | Hne].
    + now rewrite !lookup_insert_eq.
    + rewrite !lookup_insert_ne by lia. apply Hold. lia.
  - intros e He. rewrite !lookup_insert_ne by lia. apply Hnew. lia.
  - exact Hord.
  - eapply Forall_impl; [exact Hdue|]. simpl. intros u Hu. lia.
Qed.

Lemma invariant_run_timers (fuel : nat) (target : Z) :
  ∀ w, invariant w → invariant (run_timers fuel target w).
Proof.
  induction fuel as [|fuel IH]; intros w Hinv; simpl; [exact Hinv|].
  destruct (timers w) as [|t rest] eqn:Hq; [exact Hinv|].
  destruct (due t <=? target)%Z; [|exact Hinv].
  apply IH. now apply invariant_fire.
Qed.

Lemma invariant_advance (dt : Z) (w : State) :
  invariant w → invariant (advance dt w).
Proof.
  intros Hinv. unfold advance.
  destruct (invariant_run_timers (length (timers w)) (clock w + dt) w Hinv)
    as (Hpos & Hlis & Hold & Hnew & Hord & Hdue).
  unfold invariant. cbn [set_clock listenEvents_calls listener handlers timers clock].
  repeat split; try assumption.
  eapply Forall_impl; [exact Hdue|]. simpl. intros u Hu. lia.
Qed.

Lemma invariant_run_steps (steps : list Step) :
  ∀ w, invariant w → invariant (run_steps steps w).
Proof.
  induction steps as [|s steps IH]; intros w Hinv; [exact Hinv|].
  apply IH. destruct s as [key value | e error | dt]; simpl.
  - now apply invariant_putSetting.
  - now apply invariant_emit_error.
  - now apply invariant_advance.
Qed.

(** X11: in every state a camera reaches from its constructor through
    [putSetting] calls, error events of any subscription and the passing of
    time, [this.listener] is the emitter of the latest [listenEvents] call;
    each emitter handed out so far, abandoned ones included, still carries
    the restart handler and only that; no handler was ever removed and no
    restart is pending for longer than ten seconds.  The state is one the
    properties of the listen loop apply to. *)
Theorem reachable_invariant (config : Storage) (now : Z) (steps : list Step) :
  invariant (run_steps steps (construct config now))
  ∧ well_formed (run_steps steps (construct config now)) = true.
Proof.
  assert (Hinv : invariant (run_steps steps (construct config now))).
  { apply invariant_run_steps, invariant_construct. }
  split; [exact Hinv | now apply invariant_well_formed].
Qed.

(** X12: an error event of a subscription that was handed out earlier,
    whether or not it is still [this.listener], is logged and schedules a
    restart of its own: [this.listener] stays, and ten seconds later one more
    [listenEvents] call has been made than without the event.  An emitter
    that was never handed out has no listener, and emitting on it throws. *)
Theorem abandoned_subscription_restarts (config : Storage) (now : Z)
    (steps : list Step) (e : nat) (error : string) :
  let w := run_steps steps (construct config now) in
  ((e < listenEvents_calls w)%nat →
     (emit_error e error w).2 = Normal
     ∧ listener (emit_error e error w).1 = listener w
     ∧ (∀ dt, (dt < 10000)%Z →
          listenEvents_calls (advance dt (emit_error e error w).1)
          = listenEvents_calls (advance dt w))
     ∧ (∀ dt, (10000 ≤ dt)%Z →
          listenEvents_calls (advance dt (emit_error e error w).1)
          = S (listenEvents_calls (advance dt w))))
  ∧ ((listenEvents_calls w ≤ e)%nat → emit_error e error w = (w, Throw)).
Proof.
  intros w.
  assert (Hinv : invariant w) by apply invariant_run_steps, invariant_construct.
  assert (Hwf := invariant_well_formed w Hinv).
  destruct Hinv as (Hpos & Hlis & Hold & Hnew & _).
  split.
  - intros Hlt. unfold emit_error. rewrite (Hold e Hlt). cbn [fst snd foldl run_handler].
    destruct (handler_spec error w Hwf) as (_ & Hl & _ & _ & _ & _ & _ & Hadv).
    split; [reflexivity|]. split; [exact Hl|]. split; intros dt Hdt; rewrite Hadv.
    + replace (10000 <=? dt)%Z with false by lia. reflexivity.
    + replace (10000 <=? dt)%Z with true by lia. reflexivity.
  - intros Hge. unfold emit_error. now rewrite (Hnew e Hge).
Qed.

End listen_loop_invariant.

(** ** RtspProvider: the registry and the host log over whole runs *)

Section provider_runs.
Import RtspProvider.
Context `{Platform}.

Lemma getDevice_frame `{ProviderMethods} (nativeId : string) (p : State) :
  notifications (getDevice nativeId p).2 = notifications p
  ∧ random_calls (getDevice nativeId p).2 = random_calls p.
Proof.
  unfold getDevice. destruct (devices p !! nativeId); [auto|].
  destruct (createCamera nativeId (heap p)) as [[r|] heap']; auto.
Qed.

Lemma getDevice_answer `{ProviderMethods} (nativeId : string) (p : State) :
  (getDevice nativeId p).1 = devices (getDevice nativeId p).2 !! nativeId.
Proof.
  unfold getDevice. destruct (devices p !! nativeId) as [r|] eqn:Hr;
    [simpl; now rewrite Hr|].
  destruct (createCamera nativeId (heap p)) as [[r|] heap']; simpl.
  - now rewrite lookup_insert_eq.
  - now rewrite Hr.
Qed.

Lemma getDevice_grows `{ProviderMethods} (nativeId : string) (p : State) :
  devices p ⊆ devices (getDevice nativeId p).2.
Proof.
  unfold getDevice. destruct (devices p !! nativeId) as [r|] eqn:Hr; [reflexivity|].
  destruct (createCamera nativeId (heap p)) as [[r|] heap']; simpl; [|reflexivity].
  now apply insert_subseteq.
Qed.

(** X13: for every factory a subclass may install, [getDevice] answers
    exactly what the registry holds for the identifier afterwards, so an
    adapter is answered if and only if it is cached and a falsy answer of the
    factory is not cached; no call on the provider ever removes or replaces
    an entry of the registry. *)
Theorem registry_only_grows `{ProviderMethods} (calls : list Call) (p : State)
    (nativeId : string) :
  (getDevice nativeId p).1 = devices (getDevice nativeId p).2 !! nativeId
  ∧ ((getDevice nativeId p).1 = None →
     devices (getDevice nativeId p).2 = devices p)
  ∧ devices p ⊆ devices (run calls p).
Proof.
  split; [apply getDevice_answer|]. split.
  - unfold getDevice. destruct (devices p !! nativeId) as [r|]; [discriminate|].
    destruct (createCamera nativeId (heap p)) as [[r|] heap']; [discriminate|reflexivity].
  - revert p. induction calls as [|c calls IH]; intros p; [reflexivity|].
    simpl. etrans; [|apply IH].
    destruct c as [id | key value]; simpl; [apply getDevice_grows | reflexivity].
Qed.

(** *** The base provider *)

Lemma registry_ok_getDevice (nativeId : string) (p : State) :
  registry_ok p → registry_ok (getDevice (H := base) nativeId p).2.
Proof.
  intros [Hrefs Hsize].
  destruct (devices p !! nativeId) as [r|] eqn:Hr.
  - rewrite (getDevice_cached nativeId p r Hr). now split.
  - rewrite (getDevice_base_created nativeId p Hr). split; simpl.
    + intros id r. destruct (decide (id = nativeId)) as [-> | Hne].
      * rewrite lookup_insert_eq. intros [= <-].
        rewrite lookup_app_r by lia. now rewrite Nat.sub_diag.
      * rewrite lookup_insert_ne by congruence. intros Hid.
        apply lookup_app_l_Some. now apply Hrefs.
    + rewrite map_size_insert_None by exact Hr.
      rewrite length_app, Hsize. simpl. lia.
Qed.

Lemma registry_ok_run (calls : list Call) :
  ∀ p, registry_ok p → registry_ok (run (H0 := base) calls p).
Proof.
  induction calls as [|c calls IH]; intros p Hp; [exact Hp|].
  apply IH. destruct c as [id | key value]; simpl.
  - now apply registry_ok_getDevice.
  - exact Hp.
Qed.

Lemma registry_ok_warm (nativeIds : list (option string)) :
  ∀ p, registry_ok p →
    registry_ok
      (foldl (λ p camId,
                match camId with
                | Some id => if Js.truthy camId
                             then (getDevice (H := base) id p).2 else p
                | None => p
                end) p nativeIds).
Proof.
  induction nativeIds as [|[id|] nativeIds IH]; intros p Hp; simpl; auto.
  apply IH. destruct (negb _); [now apply registry_ok_getDevice | exact Hp].
Qed.

Lemma registry_ok_construct (nativeIds : list (option string)) :
  registry_ok (construct (H := base) nativeIds).
Proof.
  apply registry_ok_warm. split; [|reflexivity].
  intros id r. simpl. now rewrite lookup_empty.
Qed.

(** X14: in every state of a base provider, from its constructor on, each
    registry entry refers to an adapter that exists and was built for that
    very identifier, different identifiers have different adapters, and
    there are exactly as many adapters as registered identifiers: no adapter
    is ever built twice for one identifier or left unregistered. *)
Theorem registry_sound (nativeIds : list (option string)) (calls : list Call) :
  let p := run (H0 := base) calls (construct (H := base) nativeIds) in
  registry_ok p
  ∧ (∀ id1 id2 r, devices p !! id1 = Some r → devices p !! id2 = Some r → id1 = id2)
  ∧ (∀ id r, devices p !! id = Some r → (r < length (heap p))%nat).
Proof.
  intros p.
  assert (Hok : registry_ok p) by apply registry_ok_run, registry_ok_construct.
  split; [exact Hok|]. destruct Hok as [Hrefs _]. split.
  - intros id1 id2 r H1 H2. apply Hrefs in H1, H2. congruence.
  - intros id r Hr. apply Hrefs in Hr. now apply lookup_lt_Some in Hr.
Qed.

Lemma warm_step (p : State) (camId : option string) (id : string) :
  is_Some (devices
             match camId with
             | Some id' => if Js.truthy camId
                           then (getDevice (H := base) id' p).2 else p
             | None => p
             end !! id)
  ↔ is_Some (devices p !! id) ∨ (camId = Some id ∧ id ≠ "").
Proof.
  destruct camId as [id'|].
  2: { split; [auto|]. intros [Hp | [Heq _]]; [exact Hp | discriminate Heq]. }
  simpl. destruct (decide (id' = "")) as [-> | Hne'].
  { simpl. split; [auto|]. intros [Hp | [Heq Hne]]; [exact Hp|].
    injection Heq as <-. now contradict Hne. }
  rewrite bool_decide_eq_false_2 by exact Hne'. simpl. split.
  - intros Hs. destruct (decide (id = id')) as [-> | Hdiff]; [auto|].
    left. revert Hs. unfold getDevice.
    destruct (devices p !! id') as [r|]; [auto|]. simpl.
    now rewrite lookup_insert_ne by congruence.
  - intros [[r Hr] | [Heq Hne]].
    + exists r. now apply getDevice_keeps.
    + injection Heq as ->.
      destruct (getDevice_base_registers id p) as (r & _ & Hr). eauto.
Qed.

Lemma warm_registered (nativeIds : list (option string)) :
  ∀ p id,
    is_Some (devices
               (foldl (λ p camId,
                         match camId with
                         | Some id => if Js.truthy camId
                                      then (getDevice (H := base) id p).2 else p
                         | None => p
                         end) p nativeIds) !! id)
    ↔ is_Some (devices p !! id) ∨ (Some id ∈ nativeIds ∧ id ≠ "").
Proof.
  induction nativeIds as [|camId nativeIds IH]; intros p id.
  - simpl. split; [auto|].
    intros [Hp | [Hin _]]; [exact Hp|]. now apply elem_of_nil in Hin.
  - cbn [foldl]. rewrite IH, warm_step, elem_of_cons.
    split.
    + intros [[Hp | [-> Hne]] | [Hin Hne]]; auto.
    + intros [Hp | [[<- | Hin] Hne]]; auto.
Qed.

(** X15: the constructor of a base provider registers an adapter for
    exactly the identifiers the host lists that are non-empty strings; an
    absent identifier (the provider's own) and the empty string are skipped,
    and an identifier listed twice gets one adapter.  It announces nothing
    and draws no random number. *)
Theorem construct_registers_truthy (nativeIds : list (option string)) (id : string) :
  (is_Some (devices (construct (H := base) nativeIds) !! id)
   ↔ Some id ∈ nativeIds ∧ id ≠ "")
  ∧ size (devices (construct (H := base) nativeIds))
    = length (heap (construct (H := base) nativeIds))
  ∧ notifications (construct (H := base) nativeIds) = []
  ∧ random_calls (construct (H := base) nativeIds) = 0%nat.
Proof.
  split; [|split].
  - unfold construct. rewrite warm_registered. simpl. rewrite lookup_empty.
    split; [intros [[? [=]]|?]; auto | auto].
  - apply registry_ok_construct.
  - unfold construct.
    assert (Hgen : ∀ p, notifications p = [] ∧ random_calls p = 0%nat →
              notifications
                (foldl (λ p camId,
                          match camId with
                          | Some id => if Js.truthy camId
                                       then (getDevice (H := base) id p).2 else p
                          | None => p
                          end) p nativeIds) = []
              ∧ random_calls
                  (foldl (λ p camId,
                            match camId with
                            | Some id => if Js.truthy camId
                                         then (getDevice (H := base) id p).2 else p
                            | None => p
                            end) p nativeIds) = 0%nat).
    { induction nativeIds as [|[id'|] nativeIds IH]; intros p Hp; simpl; auto.
      apply IH. destruct (negb _); [|exact Hp].
      destruct (getDevice_frame (H0 := base) id' p) as [-> ->]. exact Hp. }
    apply Hgen. split; reflexivity.
Qed.

End provider_runs.

Section provider_log.
Import RtspProvider.
Context `{Platform} `{ProviderMethods}.

Lemma draws_S (start n : nat) :
  draws start (S n) = number_toString (Math_random start) :: draws (S start) n.
Proof. reflexivity. Qed.

Lemma names_put_getDevice (id : string) (calls : list Call) :
  names_put (CallGetDevice id :: calls) = names_put calls.
Proof. reflexivity. Qed.

Lemma names_put_putSetting (key : string) (value : SettingValue) (calls : list Call) :
  names_put (CallPutSetting key value :: calls) = toString value :: names_put calls.
Proof. reflexivity. Qed.

Lemma run_log (calls : list Call) :
  ∀ p,
    notifications (run calls p)
    = (notifications p
       ++ zip (draws (random_calls p) (length (names_put calls))) (names_put calls)
          ≫= announcement)%list
    ∧ random_calls (run calls p)
      = (random_calls p + length (names_put calls))%nat.
Proof.
  induction calls as [|c calls IH]; intros p.
  - simpl. rewrite app_nil_r. auto with lia.
  - cbn [run foldl]. fold (run calls (call p c)).
    destruct (IH (call p c)) as [-> ->].
    destruct c as [id | key value].
    + rewrite names_put_getDevice. cbn [call].
      destruct (getDevice_frame id p) as [-> ->]. auto.
    + rewrite names_put_putSetting. cbn [call length].
      change (random_calls (putSetting key value p)) with (S (random_calls p)).
      split; [|lia].
      change (notifications (putSetting key value p))
        with (notifications p
              ++ announcement (number_toString (Math_random (random_calls p)),
                               toString value))%list.
      rewrite draws_S. cbn [zip zip_with]. rewrite bind_cons.
      now rewrite <- app_assoc.
Qed.

(** X16: the host log of a provider is, from the constructor on, one
    announcement per [putSetting] call and nothing else: the discovery of a
    Camera named by the call's value under the spelling of the call's draw,
    the setup alert for that name, and the clearing of that same alert right
    after it.  [getDevice] calls leave no trace, no alert stays raised, and
    the n-th camera carries the n-th draw. *)
Theorem host_log (nativeIds : list (option string)) (calls : list Call) :
  let p := run calls (construct nativeIds) in
  let names := names_put calls in
  notifications p = zip (draws 0 (length names)) names ≫= announcement
  ∧ random_calls p = length names
  ∧ length (notifications p) = (3 * length names)%nat
  ∧ discovered_ids p = draws 0 (length names).
Proof.
  intros p names.
  assert (Hstart : notifications (construct nativeIds) = []
                   ∧ random_calls (construct nativeIds) = 0%nat).
  { unfold construct. generalize nativeIds. intros l.
    assert (Hgen : ∀ q, notifications q = [] ∧ random_calls q = 0%nat →
              notifications
                (foldl (λ p camId,
                          match camId with
                          | Some id => if Js.truthy camId
                                       then (getDevice id p).2 else p
                          | None => p
                          end) q l) = []
              ∧ random_calls
                  (foldl (λ p camId,
                            match camId with
                            | Some id => if Js.truthy camId
                                         then (getDevice id p).2 else p
                            | None => p
                            end) q l) = 0%nat).
    { induction l as [|[id'|] l IH]; intros q Hq; simpl; auto.
      apply IH. destruct (negb _); [|exact Hq].
      destruct (getDevice_frame id' q) as [-> ->]. exact Hq. }
    apply Hgen. split; reflexivity. }
  destruct Hstart as [Hn Hr].
  destruct (run_log calls (construct nativeIds)) as [Hlog Hcalls].
  fold p in Hlog, Hcalls. fold names in Hlog, Hcalls.
  rewrite Hn, Hr in Hlog. rewrite Hr in Hcalls. simpl in Hlog, Hcalls.
  assert (Hlen : length (draws 0 (length names)) = length names).
  { unfold draws. now rewrite length_fmap, length_seq. }
  split; [exact Hlog|]. split; [exact Hcalls|].
  unfold discovered_ids. rewrite Hlog. clear Hlog Hcalls.
  revert Hlen. generalize (draws 0 (length names)). generalize names.
  clear. intros names ids. revert ids.
  induction names as [|name names IH]; intros [|id ids] Hlen; try discriminate.
  - split; reflexivity.
  - simpl in Hlen. injection Hlen as Hlen. destruct (IH ids Hlen) as [IH1 IH2].
    cbn [zip zip_with]. rewrite bind_cons. cbn [announcement app length fst snd].
    change (omap ?f (OnDeviceDiscovered ?d :: Alert ?a :: ClearAlert ?c :: ?l))
      with (nativeId d :: omap f l).
    rewrite IH1, IH2. split; [lia | reflexivity].
Qed.

End provider_log.

(** ** Worked instances of the further properties *)

Section further_instances.
Import RtspSmartCamera.

Lemma getSettings_resave_witness :
  RtspCamera.getSettings Sample.digital !! 3%nat
  = Some {| Setting.key := "noAudio";
            Setting.title := "No Audio";
            Setting.placeholder := None;
            Setting.description :=
              Some "Enable this setting if the stream does not have audio or to mute audio.";
            Setting.type := Some "boolean";
            Setting.value := Some (Some "false") |}
  ∧ RtspCamera.getSettings
      (RtspCamera.putSetting (H := Sample.repeating) "noAudio" (VString "false")
         Sample.digital)
    = RtspCamera.getSettings Sample.digital.
Proof.
  split; [reflexivity|].
  apply (getSettings_resave (H := Sample.repeating) Sample.digital
           {| Setting.key := "noAudio";
              Setting.title := "No Audio";
              Setting.placeholder := None;
              Setting.description :=
                Some "Enable this setting if the stream does not have audio or to mute audio.";
              Setting.type := Some "boolean";
              Setting.value := Some (Some "false") |} "false").
  - right. right. right. left.
  - reflexivity.
Defined.

Lemma rtspPort_never_offered_witness :
  Sample.digital !! "rtspPort" = None
  ∧ getRtspAddress
      (foldl (λ st entry,
                RtspCamera.putSetting (H := Sample.repeating) entry.1 entry.2 st)
         Sample.digital
         [("ip", VString "10.0.0.9"); ("httpPort", VNumber (H := Sample.repeating) Sample.Half)])
    = "10.0.0.9:554".
Proof.
  split; [reflexivity|].
  apply (rtspPort_never_offered (H := Sample.family) (H0 := Sample.repeating)
           [("ip", VString "10.0.0.9"); ("httpPort", VNumber (H := Sample.repeating) Sample.Half)]
           Sample.digital); [reflexivity|].
  intros entry Hin.
  apply elem_of_cons in Hin as [-> | Hin]; [left|].
  apply elem_of_cons in Hin as [-> | Hin]; [right; left|].
  now apply elem_of_nil in Hin.
Defined.

Lemma putSetting_override_in_force_witness :
  isAnalogueCamera (storage Sample.camera) = false
  ∧ getStreamUrl (H := Sample.family)
      (storage (putSetting (H := Sample.repeating) "rtspUrlOverride"
                  (VString "rtsp://nvr/1") Sample.camera).1)
    = "rtsp://nvr/1"
  ∧ listener (putSetting (H := Sample.repeating) "rtspUrlOverride"
                (VString "rtsp://nvr/1") Sample.camera).1
    = Some 0%nat.
Proof.
  split; [reflexivity|].
  destruct (putSetting_override_in_force (H := Sample.family) (H0 := Sample.repeating)
              (VString "rtsp://nvr/1") Sample.camera (or_introl eq_refl))
    as (Hset & _ & Hlistener & _).
  split; [apply Hset; discriminate | exact Hlistener].
Defined.

Lemma putSettings_restart_each_witness :
  well_formed Sample.camera = true
  ∧ listenEvents_calls
      (advance 9999
         (putSettings (H := Sample.repeating)
            [("ip", VString "10.0.0.9"); ("rtspChannel", VString "3")]
            Sample.camera)) = 1%nat
  ∧ listenEvents_calls
      (advance 10000
         (putSettings (H := Sample.repeating)
            [("ip", VString "10.0.0.9"); ("rtspChannel", VString "3")]
            Sample.camera)) = 3%nat.
Proof.
  split; [reflexivity|].
  destruct (putSettings_restart_each (H0 := Sample.repeating)
              [("ip", VString "10.0.0.9"); ("rtspChannel", VString "3")]
              Sample.camera eq_refl)
    as (_ & _ & Hbefore & Hafter).
  split; [apply (Hbefore 9999%Z) | apply (Hafter 10000%Z)]; lia.
Defined.

Lemma resave_still_restarts_witness :
  well_formed Sample.camera = true
  ∧ storage (putSetting (H := Sample.repeating) "ip" (VString "192.168.1.100")
               Sample.camera).1
    = storage Sample.camera
  ∧ listenEvents_calls
      (advance 10000
         (putSetting (H := Sample.repeating) "ip" (VString "192.168.1.100")
            Sample.camera).1) = 2%nat.
Proof.
  split; [reflexivity|].
  destruct (resave_still_restarts (H := Sample.family) (H0 := Sample.repeating)
              Sample.camera
              {| Setting.key := "ip";
                 Setting.title := "Address";
                 Setting.placeholder := Some "192.168.1.100";
                 Setting.description := None;
                 Setting.type := None;
                 Setting.value := Some (Some "192.168.1.100") |}
              "192.168.1.100" eq_refl)
    as (Hsame & _ & Hcalls).
  - left.
  - reflexivity.
  - split; [exact Hsame | exact Hcalls].
Defined.

(** After one fault and its restart the first subscription is abandoned;
    an error event on it still brings a third [listenEvents] call. *)
Lemma abandoned_subscription_restarts_witness :
  listener (run_steps (H := Sample.repeating)
              [StepError 0 "socket closed"; StepAdvance 10000]
              Sample.camera) = Some 1%nat
  ∧ listenEvents_calls
      (advance 10000
         (emit_error 0 "late failure"
            (run_steps (H := Sample.repeating)
               [StepError 0 "socket closed"; StepAdvance 10000]
               Sample.camera)).1) = 3%nat.
Proof.
  split; [reflexivity|].
  destruct (abandoned_subscription_restarts (H := Sample.repeating)
              Sample.digital 0
              [StepError 0 "socket closed"; StepAdvance 10000] 0 "late failure")
    as [Hold _].
  destruct Hold as (_ & _ & _ & Hafter).
  - vm_compute. lia.
  - apply (Hafter 10000%Z). lia.
Defined.

End further_instances.
